(** * Kademlia routing table, local storage and lookup

    A shallow embedding of [src/kademlia/kademlia.py]: the classes
    [KademliaNode] and [KademliaDHT].  Python integers are unbounded, so
    identifiers are [Z]; [^] is [Z.lxor].  Python lists are [list], the two
    dictionaries ([storage], [nodes]) are [gmap]s, and the only exception
    the methods can raise on these inputs, [IndexError], is an explicit
    result. *)

From Stdlib Require Import ZArith Zbitwise Lia String.
From stdpp Require Import base option list gmap sorting.

Local Open Scope Z_scope.

(** ** Exceptions *)

Inductive exn : Type :=
| IndexError.

Inductive result (A : Type) : Type :=
| Ok (a : A)
| Raise (e : exn).

Arguments Ok {A} a.
Arguments Raise {A} e.

(** Sequencing stops at the first exception: [x ← r; body]. *)
#[global] Instance result_bind : MBind result := λ A B f r,
  match r with
  | Ok a => f a
  | Raise e => Raise e
  end.

Definition raises {A} (r : result A) : Prop := ∃ e, r = Raise e.

(** ** Python built-ins used by the source *)

(** [int.bit_length()]: the number of bits of the absolute value, [0] for
    [0]. *)
Definition bit_length (n : Z) : Z :=
  if n =? 0 then 0 else Z.log2 (Z.abs n) + 1.

(** [l[i]] on a list of length [len]: the position read, or nothing when
    Python raises [IndexError].  A negative index counts from the end. *)
Definition list_index (len : nat) (i : Z) : option nat :=
  if 0 <=? i then
    if i <? Z.of_nat len then Some (Z.to_nat i) else None
  else
    if 0 <=? Z.of_nat len + i then Some (Z.to_nat (Z.of_nat len + i)) else None.

(** [l[:count]]: a negative bound counts from the end, and no bound is out
    of range. *)
Definition slice_to {A} (l : list A) (count : Z) : list A :=
  if 0 <=? count then take (Z.to_nat count) l
  else take (Z.to_nat (Z.of_nat (length l) + count)) l.

(** [list.remove(x)]: drops the first occurrence of [x]. *)
Fixpoint list_remove_first (x : Z) (l : list Z) : list Z :=
  match l with
  | [] => []
  | y :: l' => if decide (x = y) then l' else y :: list_remove_first x l'
  end.

(** [list.pop(0)]: the list without its head; [IndexError] on the empty
    list. *)
Definition list_pop0 (l : list Z) : result (list Z) :=
  match l with
  | [] => Raise IndexError
  | _ :: l' => Ok l'
  end.

(** [list.sort(key=...)] with integer keys.  Python's sort is stable, and a
    stable sort has one possible result, so the insertion sort below denotes
    the same function: [sort_insert] puts an element in front of the first
    one whose key is not smaller, and elements are inserted from the right. *)
Section Sort.
Context {A : Type} (key : A → Z).

Fixpoint sort_insert (x : A) (l : list A) : list A :=
  match l with
  | [] => [x]
  | y :: l' => if key x <=? key y then x :: l else y :: sort_insert x l'
  end.

Fixpoint sort_by (l : list A) : list A :=
  match l with
  | [] => []
  | x :: l' => sort_insert x (sort_by l')
  end.
End Sort.

(** Truth value of an [Optional[str]]: [None] and the empty string are
    false. *)
Definition truthy (v : option string) : bool :=
  match v with
  | None => false
  | Some s => negb (String.eqb s EmptyString)
  end.

(** ** KademliaNode *)

Record KademliaNode : Type := mkNode {
  node_id : Z;
  k : Z;
  buckets : list (list Z);
  storage : gmap Z string
}.

Definition set_buckets (self : KademliaNode) (bs : list (list Z)) : KademliaNode :=
  {| node_id := node_id self; k := k self; buckets := bs; storage := storage self |}.

Definition set_storage (self : KademliaNode) (st : gmap Z string) : KademliaNode :=
  {| node_id := node_id self; k := k self; buckets := buckets self; storage := st |}.

(** [__init__]: [rnd] is the value drawn by [random.getrandbits(160)], used
    when [node_id] is [None] or [0]. *)
Definition init (id : option Z) (k0 : Z) (rnd : Z) : KademliaNode :=
  {| node_id := match id with
                | Some i => if i =? 0 then rnd else i
                | None => rnd
                end;
     k := k0;
     buckets := replicate 160 [];
     storage := ∅ |}.

Definition distance (id1 id2 : Z) : Z := Z.lxor id1 id2.

Definition bucket_index (self_id other : Z) : Z :=
  let d := distance self_id other in
  if 0 <? d then bit_length d - 1 else 0.

(** The body of [add_node] after the bucket has been selected. *)
Definition bucket_insert (k0 : Z) (bucket : list Z) (id : Z) : result (list Z) :=
  if decide (id ∈ bucket) then
    Ok (list_remove_first id bucket ++ [id])
  else if Z.of_nat (length bucket) <? k0 then
    Ok (bucket ++ [id])
  else
    popped ← list_pop0 bucket;
    Ok (popped ++ [id]).

Definition add_node (self : KademliaNode) (id : Z) : result KademliaNode :=
  if id =? node_id self then Ok self
  else
    let bucket_idx := bucket_index (node_id self) id in
    match list_index (length (buckets self)) bucket_idx with
    | None => Raise IndexError
    | Some i =>
        match buckets self !! i with
        | None => Raise IndexError
        | Some bucket =>
            bucket' ← bucket_insert (k self) bucket id;
            Ok (set_buckets self (<[i := bucket']> (buckets self)))
        end
    end.

Definition all_nodes (self : KademliaNode) : list Z := concat (buckets self).

Definition find_closest_nodes (self : KademliaNode) (target_id : Z)
    (count : option Z) : list Z :=
  let count := match count with
               | Some c => if c =? 0 then k self else c
               | None => k self
               end in
  slice_to (sort_by (distance target_id) (all_nodes self)) count.

Section Hashed.
(** [hashlib.sha1(key.encode()).hexdigest()] read as a base-16 integer:
    a function of the key, left abstract. *)
Variable sha1 : string → Z.

Definition store (self : KademliaNode) (key value : string) : KademliaNode :=
  let key_hash := sha1 key in
  set_storage self (<[key_hash := value]> (storage self)).

Definition find_value (self : KademliaNode) (key : string) : option string :=
  let key_hash := sha1 key in
  storage self !! key_hash.

(** ** KademliaDHT

    [nodes] maps identifiers to node objects.  [lookup] only reads them,
    so it is a function of the registry's contents when it is called. *)

Definition dht_add_node (nodes : gmap Z KademliaNode) (node : KademliaNode)
    : gmap Z KademliaNode :=
  <[node_id node := node]> nodes.

(** The [for close_node_id in closest] loop of [lookup]. *)
Fixpoint lookup_candidates (nodes : gmap Z KademliaNode) (target_key : string)
    (closest : list Z) : option string :=
  match closest with
  | [] => None
  | close_node_id :: rest =>
      match nodes !! close_node_id with
      | Some close_node =>
          let value := find_value close_node target_key in
          if truthy value then value
          else lookup_candidates nodes target_key rest
      | None => lookup_candidates nodes target_key rest
      end
  end.

Definition lookup (nodes : gmap Z KademliaNode) (id : Z) (target_key : string)
    : option string :=
  match nodes !! id with
  | None => None
  | Some node =>
      let key_hash := sha1 target_key in
      let value := find_value node target_key in
      if truthy value then value
      else
        let closest := find_closest_nodes node key_hash None in
        lookup_candidates nodes target_key closest
  end.
End Hashed.

(** ** Specification vocabulary *)

(** A [W]-bit identifier. *)
Definition is_id (W x : Z) : Prop := 0 ≤ x < 2 ^ W.

(** A sequence of insertions into one bucket, stopping at the first
    exception. *)
Fixpoint bucket_inserts (k0 : Z) (bucket : list Z) (ops : list Z) : result (list Z) :=
  match ops with
  | [] => Ok bucket
  | id :: rest => bucket' ← bucket_insert k0 bucket id; bucket_inserts k0 bucket' rest
  end.

(** The last [n] elements of a list. *)
Definition last_k {A} (n : Z) (l : list A) : list A :=
  drop (length l - Z.to_nat n) l.

(** In the history [ops] (oldest first), [y] was touched after the last
    touch of [x]. *)
Definition touched_after (ops : list Z) (x y : Z) : Prop :=
  ∃ older newer, ops = older ++ x :: newer ∧ (x ∉ newer) ∧ y ∈ newer.

(** The states a node reaches through successful [add_node] calls.  A call
    that raises leaves the node as it was: both places that can raise
    ([self.buckets[bucket_idx]] and [bucket.pop(0)]) come before any
    mutation. *)
Inductive add_node_steps (start : KademliaNode) : KademliaNode → Prop :=
| steps_done : add_node_steps start start
| steps_add self id self' :
    add_node_steps start self → add_node self id = Ok self' →
    add_node_steps start self'.

(** The routing-table invariant: 160 buckets, each within capacity and
    duplicate free, holding only identifiers other than the owner's, each
    in the bucket its distance from the owner selects. *)
Definition table_inv (self : KademliaNode) : Prop :=
  length (buckets self) = 160%nat
  ∧ ∀ i bucket, buckets self !! i = Some bucket →
      Z.of_nat (length bucket) ≤ k self
      ∧ NoDup bucket
      ∧ ∀ x, x ∈ bucket →
          x ≠ node_id self ∧ bucket_index (node_id self) x = Z.of_nat i.

(** Ascending in distance to [target]: every element is at most as far as
    all the elements behind it. *)
Definition sorted_by_distance (target : Z) (l : list Z) : Prop :=
  StronglySorted (λ x y, distance target x ≤ distance target y) l.

(** The node without its entry for [key_hash] when that entry is the empty
    string; any other node is returned as it is. *)
Definition drop_empty_value (key_hash : Z) (self : KademliaNode) : KademliaNode :=
  match storage self !! key_hash with
  | Some value =>
      if String.eqb value EmptyString
      then set_storage self (delete key_hash (storage self))
      else self
  | None => self
  end.

(** ** Concrete states used in examples

    Node [X = 0x10] with the default capacity, the same node after it has
    learnt of [Y = 0x20] (distance [0x30], bucket 5), and node [Y]. *)
Definition node_x : KademliaNode := init (Some 16) 20 0.

Definition node_x_knows_y : KademliaNode :=
  {| node_id := 16; k := 20;
     buckets := <[5%nat := [32]]> (replicate 160 []);
     storage := ∅ |}.

Definition node_y : KademliaNode := init (Some 32) 20 0.

(** A stand-in for SHA-1 in the examples: any function of the key will do. *)
Definition key_length (key : string) : Z := Z.of_nat (String.length key).

(** ** Sequences of insertions

    The loops [for ...: node.add_node(id)] of the callers: the insertions
    are made in order and the first exception ends the loop. *)
Fixpoint add_nodes (self : KademliaNode) (ids : list Z) : result KademliaNode :=
  match ids with
  | [] => Ok self
  | id :: rest => self' ← add_node self id; add_nodes self' rest
  end.

(** ** Objects and references

    A node is a mutable object that a program reaches through references:
    the registry of a [KademliaDHT] holds references and so do the
    variables of the program, so that a change made through one of them is
    seen through the others.  [objects] is the store of the node objects
    created so far, a reference is a position in it, and [dht_nodes] is the
    [nodes] dictionary of the program's [KademliaDHT]. *)
Record world : Type := mkWorld {
  objects : list KademliaNode;
  dht_nodes : gmap Z nat
}.

(** How a statement ends: normally, with an exception (the state is the one
    at the raise), or on a reference to no object, which no Python program
    can hold and which the programs below never reach. *)
Inductive outcome (A : Type) : Type :=
| Returns (a : A) (w : world)
| Raises (e : exn) (w : world)
| NoObject.

Arguments Returns {A} a w.
Arguments Raises {A} e w.
Arguments NoObject {A}.

Definition prog (A : Type) : Type := world → outcome A.

#[global] Instance prog_ret : MRet prog := λ A a w, Returns a w.

#[global] Instance prog_bind : MBind prog := λ A B f m w,
  match m w with
  | Returns a w' => f a w'
  | Raises e w' => Raises e w'
  | NoObject => NoObject
  end.

Definition raise {A} (e : exn) : prog A := λ w, Raises e w.

(** [KademliaNode(node_id, k)]. *)
Definition new_node (id : option Z) (k0 rnd : Z) : prog nat := λ w,
  Returns (length (objects w))
    {| objects := objects w ++ [init id k0 rnd]; dht_nodes := dht_nodes w |}.

Definition get_node (node : nat) : prog KademliaNode := λ w,
  match objects w !! node with
  | Some self => Returns self w
  | None => NoObject
  end.

Definition set_node (node : nat) (self : KademliaNode) : prog unit := λ w,
  Returns tt {| objects := <[node := self]> (objects w); dht_nodes := dht_nodes w |}.

Definition get_registered (id : Z) : prog (option nat) := λ w,
  Returns (dht_nodes w !! id) w.

Definition set_registered (id : Z) (node : nat) : prog unit := λ w,
  Returns tt {| objects := objects w; dht_nodes := <[id := node]> (dht_nodes w) |}.

(** [node.add_node(id)]: the object changes only when the call returns. *)
Definition call_add_node (node : nat) (id : Z) : prog unit :=
  self ← get_node node;
  match add_node self id with
  | Ok self' => set_node node self'
  | Raise e => raise e
  end.

(** [KademliaDHT.add_node]: [self.nodes[node.node_id] = node]. *)
Definition KademliaDHT_add_node (node : nat) : prog unit :=
  self ← get_node node;
  set_registered (node_id self) node.

(** [KademliaDHT.bootstrap].  The registry entry found by the membership
    test is the one read after the first [add_node], which does not change
    the registry. *)
Definition bootstrap (new_node : nat) (bootstrap_node_id : Z) : prog unit :=
  entry ← get_registered bootstrap_node_id;
  match entry with
  | Some peer =>
      call_add_node new_node bootstrap_node_id;;
      self ← get_node new_node;
      call_add_node peer (node_id self)
  | None => mret tt
  end.

(** The registry as [lookup] reads it: identifiers to the current state of
    the objects registered under them. *)
Definition registered (w : world) : gmap Z KademliaNode :=
  omap (λ node, objects w !! node) (dht_nodes w).

(** The state in which a program starts: no node, an empty registry
    ([dht = KademliaDHT()]). *)
Definition empty_world : world := {| objects := []; dht_nodes := ∅ |}.

Section Programs.
Variable sha1 : string → Z.

(** [node.store(key, value)]. *)
Definition call_store (node : nat) (key value : string) : prog unit :=
  self ← get_node node;
  set_node node (store sha1 self key value).

(** [KademliaDHT.lookup], which changes nothing. *)
Definition KademliaDHT_lookup (id : Z) (target_key : string) : prog (option string) :=
  λ w, Returns (lookup sha1 (registered w) id target_key) w.

(** The example under [if __name__ == "__main__"]: [r1], [r2], [r3] are
    the identifiers drawn for the three nodes, and the value returned is
    the [result] that the script prints. *)
Definition main (r1 r2 r3 : Z) : prog (option string) :=
  node1 ← new_node None 20 r1;
  node2 ← new_node None 20 r2;
  node3 ← new_node None 20 r3;
  KademliaDHT_add_node node1;;
  KademliaDHT_add_node node2;;
  KademliaDHT_add_node node3;;
  self1 ← get_node node1;
  bootstrap node2 (node_id self1);;
  self1 ← get_node node1;
  bootstrap node3 (node_id self1);;
  call_store node1 "hello" "world";;
  self2 ← get_node node2;
  KademliaDHT_lookup (node_id self2) "hello".
End Programs.

(** A node as [__init__] lays it out, with a capacity of at least one and a
    160-bit identifier. *)
Definition ready (self : KademliaNode) : Prop :=
  length (buckets self) = 160%nat ∧ 0 < k self ∧ is_id 160 (node_id self).

(** The registry of the example after its three registrations. *)
Definition script_registry (r1 r2 r3 : Z) : gmap Z nat :=
  <[r3 := 2%nat]> (<[r2 := 1%nat]> (<[r1 := 0%nat]> ∅)).

(** The states of the example between its statements: the three nodes, in
    the order of their creation, none holding a value yet. *)
Definition script_shape (r1 r2 r3 : Z) (w : world) (a b c : KademliaNode) : Prop :=
  objects w = [a; b; c] ∧ dht_nodes w = script_registry r1 r2 r3
  ∧ (ready a ∧ node_id a = r1 ∧ storage a = ∅)
  ∧ (ready b ∧ node_id b = r2 ∧ storage b = ∅)
  ∧ (ready c ∧ node_id c = r3 ∧ storage c = ∅).

(** A registry and a program state for the examples: [X], which knows [Y],
    and [Y], which holds a value; and the two fresh nodes as objects, each
    registered under its identifier. *)
Definition example_nodes : gmap Z KademliaNode :=
  dht_add_node (dht_add_node ∅ node_x_knows_y) (store key_length node_y "k2" "v2").

Definition example_world : world :=
  {| objects := [node_x; node_y];
     dht_nodes := <[32 := 1%nat]> (<[16 := 0%nat]> ∅) |}.

(** * Identifier and distance *)

Lemma distance_comm a b : distance a b = distance b a.
Proof. apply Z.lxor_comm. Qed.

Lemma distance_zero_iff a b : distance a b = 0 ↔ a = b.
Proof. apply Z.lxor_eq_0_iff. Qed.

Lemma distance_nonneg a b : 0 ≤ a → 0 ≤ b → 0 ≤ distance a b.
Proof. intros Ha Hb. apply Z.lxor_nonneg. tauto. Qed.

Lemma distance_le_add a b : 0 ≤ a → 0 ≤ b → distance a b ≤ a + b.
Proof.
  intros Ha Hb. unfold distance.
  pose proof (Z.add_lxor_2land a b) as Hsum.
  assert (0 ≤ Z.land a b) by (apply Z.land_nonneg; auto).
  lia.
Qed.

Lemma distance_split a b c : distance a c = distance (distance a b) (distance b c).
Proof.
  unfold distance.
  rewrite Z.lxor_assoc, <- (Z.lxor_assoc b b c), Z.lxor_nilpotent, Z.lxor_0_l.
  reflexivity.
Qed.

Lemma distance_triangle a b c :
  0 ≤ a → 0 ≤ b → 0 ≤ c → distance a c ≤ distance a b + distance b c.
Proof.
  intros Ha Hb Hc. rewrite (distance_split a b c).
  apply distance_le_add; apply distance_nonneg; assumption.
Qed.

Lemma log2_lt_width W a : 0 < W → is_id W a → Z.log2 a < W.
Proof.
  intros HW [Ha Ha']. destruct (Z.eq_dec a 0) as [->|Hne]; [done|].
  apply Z.log2_lt_pow2; lia.
Qed.

Lemma distance_is_id W a b : 0 ≤ W → is_id W a → is_id W b → is_id W (distance a b).
Proof.
  intros HW Ha Hb.
  pose proof (distance_nonneg a b (proj1 Ha) (proj1 Hb)) as Hd.
  split; [assumption|].
  destruct (Z.eq_dec (distance a b) 0) as [->|Hne]; [apply Z.pow_pos_nonneg; lia|].
  assert (0 < W) as HW'.
  { destruct (Z.eq_dec W 0) as [->|]; [|lia]. exfalso. apply Hne.
    apply distance_zero_iff. unfold is_id in Ha, Hb. simpl in Ha, Hb. lia. }
  apply Z.log2_lt_pow2; [lia|].
  pose proof (Z.log2_lxor a b (proj1 Ha) (proj1 Hb)) as Hlog.
  pose proof (log2_lt_width W a HW' Ha). pose proof (log2_lt_width W b HW' Hb).
  unfold distance. lia.
Qed.

Lemma distance_cancel a d : distance a (distance a d) = d.
Proof.
  unfold distance. rewrite <- Z.lxor_assoc, Z.lxor_nilpotent. apply Z.lxor_0_l.
Qed.

(** C4.  On [W]-bit identifiers the XOR distance is symmetric, is zero
    exactly between equal identifiers, satisfies the triangle inequality,
    and for every identifier [a] and every [W]-bit magnitude [d] there is
    exactly one [b] at distance [d] from [a] (it is itself a [W]-bit
    identifier, and no other integer is at that distance). *)
Theorem distance_metric (W a b c : Z) :
  0 ≤ W → is_id W a → is_id W b → is_id W c →
  distance a b = distance b a
  ∧ (distance a b = 0 ↔ a = b)
  ∧ distance a c ≤ distance a b + distance b c
  ∧ ∀ d, is_id W d →
      ∃ b', (is_id W b' ∧ distance a b' = d) ∧ ∀ b'', distance a b'' = d → b'' = b'.
Proof.
  intros HW Ha Hb Hc.
  split; [apply distance_comm|].
  split; [apply distance_zero_iff|].
  split.
  { apply distance_triangle; [apply Ha|apply Hb|apply Hc]. }
  intros d Hd. exists (distance a d). split.
  - split; [by apply distance_is_id|apply distance_cancel].
  - intros b'' <-. symmetry. apply distance_cancel.
Qed.

(** * Bucket index *)

Lemma bit_length_pos d : 0 < d → bit_length d = Z.log2 d + 1.
Proof.
  intros Hd. unfold bit_length.
  destruct (Z.eqb_spec d 0) as [->|_]; [lia|]. by rewrite Z.abs_eq by lia.
Qed.

Lemma bucket_index_pos self_id other :
  0 < distance self_id other →
  bucket_index self_id other = Z.log2 (distance self_id other).
Proof.
  intros Hd. unfold bucket_index. cbv zeta.
  destruct (Z.ltb_spec 0 (distance self_id other)); [|lia].
  rewrite bit_length_pos by assumption. lia.
Qed.

Lemma bucket_index_nonpos self_id other :
  distance self_id other ≤ 0 → bucket_index self_id other = 0.
Proof.
  intros Hd. unfold bucket_index. cbv zeta.
  destruct (Z.ltb_spec 0 (distance self_id other)); [lia|done].
Qed.

Lemma bucket_index_nonneg self_id other : 0 ≤ bucket_index self_id other.
Proof.
  destruct (Z.lt_ge_cases 0 (distance self_id other)).
  - rewrite bucket_index_pos by assumption. apply Z.log2_nonneg.
  - rewrite bucket_index_nonpos by assumption. lia.
Qed.

Lemma bucket_index_lt W self_id other :
  0 < W → is_id W self_id → is_id W other → bucket_index self_id other < W.
Proof.
  intros HW Hs Ho.
  destruct (distance_is_id W self_id other ltac:(lia) Hs Ho) as [Hd Hd'].
  destruct (Z.eq_dec (distance self_id other) 0) as [H0|Hne].
  - rewrite bucket_index_nonpos by lia. assumption.
  - rewrite bucket_index_pos by lia. apply Z.log2_lt_pow2; lia.
Qed.

(** C7.  For [W]-bit identifiers, [bucket_index] is monotone in the
    distance from [self], equals [bit_length(distance) - 1] for a nonzero
    distance and [0] for distance [0], and lies in [[0, W)]. *)
Theorem bucket_index_spec (W self_id x y : Z) :
  0 < W → is_id W self_id → is_id W x → is_id W y →
  (distance self_id x ≠ 0 → distance self_id y ≠ 0 →
   distance self_id x < distance self_id y →
   bucket_index self_id x ≤ bucket_index self_id y)
  ∧ bucket_index self_id x =
      (if distance self_id x =? 0 then 0 else bit_length (distance self_id x) - 1)
  ∧ 0 ≤ bucket_index self_id x < W.
Proof.
  intros HW Hs Hx Hy.
  pose proof (distance_nonneg self_id x (proj1 Hs) (proj1 Hx)) as Hdx.
  pose proof (distance_nonneg self_id y (proj1 Hs) (proj1 Hy)) as Hdy.
  split; [|split].
  - intros Hx0 Hy0 Hlt. rewrite !bucket_index_pos by lia.
    apply Z.log2_le_mono. lia.
  - destruct (Z.eqb_spec (distance self_id x) 0) as [H0|Hne].
    + apply bucket_index_nonpos. lia.
    + rewrite bucket_index_pos, bit_length_pos by lia. lia.
  - split; [apply bucket_index_nonneg|by apply bucket_index_lt].
Qed.

(** * Bucket policy *)

Lemma list_remove_first_notin x l : x ∉ l → list_remove_first x l = l.
Proof.
  induction l as [|y l IH]; simpl; [done|].
  intros Hx. apply not_elem_of_cons in Hx as [Hne Hx].
  destruct (decide (x = y)); [done|]. by rewrite IH.
Qed.

Lemma list_remove_first_app_l x l1 l2 :
  x ∈ l1 → list_remove_first x (l1 ++ l2) = list_remove_first x l1 ++ l2.
Proof.
  induction l1 as [|y l1 IH]; simpl; [by intros ?%elem_of_nil|].
  intros Hx. destruct (decide (x = y)); [done|].
  apply elem_of_cons in Hx as [?|Hx]; [done|]. by rewrite IH.
Qed.

Lemma list_remove_first_app_r x l1 l2 :
  x ∉ l1 → list_remove_first x (l1 ++ l2) = l1 ++ list_remove_first x l2.
Proof.
  induction l1 as [|y l1 IH]; simpl; [done|].
  intros Hx. apply not_elem_of_cons in Hx as [Hne Hx].
  destruct (decide (x = y)); [done|]. by rewrite IH.
Qed.

Lemma list_remove_first_length x l :
  x ∈ l → S (length (list_remove_first x l)) = length l.
Proof.
  induction l as [|y l IH]; simpl; [by intros ?%elem_of_nil|].
  intros Hx. destruct (decide (x = y)); [done|].
  apply elem_of_cons in Hx as [?|Hx]; [done|]. simpl. by rewrite IH.
Qed.

Lemma list_remove_first_subseteq x l y :
  y ∈ list_remove_first x l → y ∈ l.
Proof.
  induction l as [|z l IH]; simpl; [done|].
  destruct (decide (x = z)); rewrite !elem_of_cons; [tauto|].
  intros [?|?]; [by left|right; by apply IH].
Qed.

Lemma list_remove_first_NoDup x l :
  NoDup l → NoDup (list_remove_first x l) ∧ x ∉ list_remove_first x l.
Proof.
  induction 1 as [|y l Hy Hl IH]; simpl.
  - split; [constructor|apply not_elem_of_nil].
  - destruct (decide (x = y)) as [->|Hne]; [done|].
    destruct IH as [IH1 IH2]. split.
    + constructor; [|done]. intros ?%list_remove_first_subseteq. done.
    + apply not_elem_of_cons. done.
Qed.

Lemma list_remove_first_other x l y :
  y ≠ x → y ∈ l → y ∈ list_remove_first x l.
Proof.
  intros Hne. induction l as [|z l IH]; simpl; [done|].
  rewrite elem_of_cons. destruct (decide (x = z)) as [->|].
  - intros [?|?]; [done|done].
  - rewrite elem_of_cons. intros [?|?]; [by left|right; by apply IH].
Qed.

Lemma remove_dups_snoc (l : list Z) x :
  remove_dups (l ++ [x]) = list_remove_first x (remove_dups l) ++ [x].
Proof.
  induction l as [|y l IH]; simpl; [done|].
  destruct (decide_rel elem_of y (l ++ [x])) as [Hin|Hnin];
    destruct (decide_rel elem_of y l) as [Hin'|Hnin'].
  - done.
  - apply elem_of_app in Hin as [?|Hin]; [done|].
    apply list_elem_of_singleton in Hin as ->. simpl.
    destruct (decide (x = x)); [|done].
    rewrite IH. rewrite list_remove_first_notin; [done|].
    by rewrite elem_of_remove_dups.
  - exfalso. apply Hnin. apply elem_of_app. by left.
  - simpl. destruct (decide (x = y)) as [->|Hne].
    + exfalso. apply Hnin. apply elem_of_app. right. by apply list_elem_of_singleton.
    + by rewrite IH.
Qed.

Lemma last_k_short {A} n (l : list A) : Z.of_nat (length l) ≤ n → last_k n l = l.
Proof.
  intros Hlen. unfold last_k.
  replace (length l - Z.to_nat n)%nat with 0%nat by lia. done.
Qed.

Lemma last_k_app_full {A} n (l1 l2 : list A) :
  Z.of_nat (length l2) = n → last_k n (l1 ++ l2) = l2.
Proof.
  intros Hlen. unfold last_k. rewrite length_app.
  replace (length l1 + length l2 - Z.to_nat n)%nat with (length l1) by lia.
  apply drop_app_length.
Qed.

Lemma last_k_length {A} n (l : list A) : 0 ≤ n → Z.of_nat (length (last_k n l)) ≤ n.
Proof. intros Hn. unfold last_k. rewrite length_drop. lia. Qed.

Lemma last_k_split {A} n (l : list A) :
  ∃ older, l = older ++ last_k n l
           ∧ (Z.of_nat (length (last_k n l)) < n → older = []).
Proof.
  exists (take (length l - Z.to_nat n) l). split.
  - unfold last_k. by rewrite take_drop.
  - unfold last_k. rewrite length_drop. intros Hlt.
    replace (length l - Z.to_nat n)%nat with 0%nat by lia. done.
Qed.

Lemma bucket_inserts_app k0 bucket ops1 ops2 :
  bucket_inserts k0 bucket (ops1 ++ ops2) =
  bucket' ← bucket_inserts k0 bucket ops1; bucket_inserts k0 bucket' ops2.
Proof.
  revert bucket. induction ops1 as [|id ops1 IH]; intros bucket; simpl; [done|].
  destruct (bucket_insert k0 bucket id) as [bucket'|e]; simpl; [apply IH|done].
Qed.

Lemma bucket_insert_present k0 bucket id :
  id ∈ bucket → bucket_insert k0 bucket id = Ok (list_remove_first id bucket ++ [id]).
Proof. intros Hin. unfold bucket_insert. by rewrite decide_True. Qed.

Lemma bucket_insert_room k0 bucket id :
  id ∉ bucket → Z.of_nat (length bucket) < k0 →
  bucket_insert k0 bucket id = Ok (bucket ++ [id]).
Proof.
  intros Hnin Hlen. unfold bucket_insert. rewrite decide_False by done.
  destruct (Z.ltb_spec (Z.of_nat (length bucket)) k0); [done|lia].
Qed.

Lemma bucket_insert_full k0 bucket id :
  id ∉ bucket → k0 ≤ Z.of_nat (length bucket) →
  bucket_insert k0 bucket id = popped ← list_pop0 bucket; Ok (popped ++ [id]).
Proof.
  intros Hnin Hlen. unfold bucket_insert. rewrite decide_False by done.
  destruct (Z.ltb_spec (Z.of_nat (length bucket)) k0); [lia|done].
Qed.

Lemma bucket_insert_length k0 bucket id bucket' :
  Z.of_nat (length bucket) ≤ k0 → bucket_insert k0 bucket id = Ok bucket' →
  Z.of_nat (length bucket') ≤ k0.
Proof.
  intros Hlen. destruct (decide (id ∈ bucket)) as [Hin|Hnin].
  - rewrite bucket_insert_present by done. intros [= <-].
    rewrite length_app. simpl. pose proof (list_remove_first_length id bucket Hin). lia.
  - destruct (Z.lt_ge_cases (Z.of_nat (length bucket)) k0) as [Hlt|Hge].
    + rewrite bucket_insert_room by done. intros [= <-].
      rewrite length_app. simpl. lia.
    + rewrite bucket_insert_full by done.
      destruct bucket as [|head rest]; simpl; [done|]. intros [= <-].
      rewrite length_app. simpl in *. lia.
Qed.

(** One insertion keeps the bucket equal to the [k0] most recently touched
    identifiers, in the order of their last touch. *)
Lemma bucket_insert_recent k0 (seen : list Z) id :
  0 < k0 → NoDup seen →
  bucket_insert k0 (last_k k0 seen) id =
  Ok (last_k k0 (list_remove_first id seen ++ [id])).
Proof.
  intros Hk Hnd.
  destruct (last_k_split k0 seen) as (older & Hsplit & Holder).
  pose proof (last_k_length k0 seen ltac:(lia)) as Hlen.
  set (bucket := last_k k0 seen) in *.
  assert (NoDup older ∧ NoDup bucket ∧ ∀ x, x ∈ older → x ∉ bucket) as (Hnd1 & Hnd2 & Hdisj).
  { rewrite Hsplit in Hnd. apply NoDup_app in Hnd. tauto. }
  destruct (decide (id ∈ bucket)) as [Hin|Hnin].
  - rewrite bucket_insert_present by done. f_equal.
    assert (id ∉ older) as Hno by (intros ?; by eapply Hdisj).
    rewrite Hsplit. rewrite list_remove_first_app_r by done.
    pose proof (list_remove_first_length id bucket Hin) as Hrm.
    destruct (Z.lt_ge_cases (Z.of_nat (length bucket)) k0) as [Hlt|Hge].
    + rewrite (Holder Hlt). simpl. rewrite last_k_short; [done|].
      rewrite length_app. simpl. lia.
    + rewrite <- app_assoc. rewrite last_k_app_full; [done|].
      rewrite length_app. simpl. lia.
  - destruct (Z.lt_ge_cases (Z.of_nat (length bucket)) k0) as [Hlt|Hge].
    + rewrite bucket_insert_room by done. f_equal.
      rewrite Hsplit. rewrite (Holder Hlt). simpl.
      rewrite list_remove_first_notin by done.
      rewrite last_k_short; [done|]. rewrite length_app. simpl. lia.
    + rewrite bucket_insert_full by done.
      destruct bucket as [|head rest] eqn:Hb; simpl in *; [lia|]. f_equal.
      assert (list_remove_first id seen = list_remove_first id older ++ head :: rest) as ->.
      { rewrite Hsplit. destruct (decide (id ∈ older)) as [Ho|Ho].
        - by rewrite list_remove_first_app_l.
        - rewrite list_remove_first_app_r by done.
          by rewrite (list_remove_first_notin id (head :: rest)),
            (list_remove_first_notin id older). }
      replace ((list_remove_first id older ++ head :: rest) ++ [id])
        with ((list_remove_first id older ++ [head]) ++ (rest ++ [id]))
        by (by rewrite <- !app_assoc).
      rewrite last_k_app_full; [done|]. rewrite length_app. simpl. lia.
Qed.

Lemma bucket_inserts_recent k0 ops :
  0 < k0 → bucket_inserts k0 [] ops = Ok (last_k k0 (remove_dups ops)).
Proof.
  intros Hk. induction ops as [|id ops IH] using rev_ind; [done|].
  rewrite bucket_inserts_app, IH. simpl.
  rewrite bucket_insert_recent by (done || apply NoDup_remove_dups). simpl.
  by rewrite remove_dups_snoc.
Qed.

Lemma remove_dups_touched_after (ops : list Z) older head rest y :
  remove_dups ops = older ++ head :: rest → y ∈ rest → touched_after ops head y.
Proof.
  revert older. induction ops as [|x ops IH]; intros older; simpl.
  - intros Hnil. by destruct older.
  - destruct (decide_rel elem_of x ops) as [Hin|Hnin].
    + intros Heq Hy. destruct (IH _ Heq Hy) as (o & n & -> & Hn & Hyn).
      exists (x :: o), n. done.
    + destruct older as [|x' older]; simpl; intros [= -> Heq] Hy.
      * exists [], ops. split; [done|]. split; [done|].
        apply elem_of_remove_dups. by rewrite Heq.
      * destruct (IH _ Heq Hy) as (o & n & -> & Hn & Hyn).
        exists (x' :: o), n. done.
Qed.

(** C3.  With a bucket capacity [k0 ≥ 1]: an identifier already in the
    bucket is moved to the tail and the length is unchanged; a new one is
    appended while there is room; on a full bucket the head is evicted and
    the new identifier appended.  One insertion never takes a bucket past
    [k0], and after any sequence of insertions into an empty bucket the
    bucket holds the [k0] most recently touched identifiers, oldest touch
    first: every member behind the head was touched after the head, so the
    head, which is the entry evicted, is the least recently touched one. *)
Theorem bucket_insert_policy (k0 : Z) :
  0 < k0 →
  (∀ bucket id, id ∈ bucket →
     bucket_insert k0 bucket id = Ok (list_remove_first id bucket ++ [id])
     ∧ length (list_remove_first id bucket ++ [id]) = length bucket)
  ∧ (∀ bucket id, id ∉ bucket → Z.of_nat (length bucket) < k0 →
     bucket_insert k0 bucket id = Ok (bucket ++ [id]))
  ∧ (∀ bucket id, id ∉ bucket → k0 ≤ Z.of_nat (length bucket) →
     ∃ head rest, bucket = head :: rest
                  ∧ bucket_insert k0 bucket id = Ok (rest ++ [id]))
  ∧ (∀ bucket id, Z.of_nat (length bucket) ≤ k0 →
     ∃ bucket', bucket_insert k0 bucket id = Ok bucket'
                ∧ Z.of_nat (length bucket') ≤ k0)
  ∧ (∀ ops, ∃ bucket,
       bucket_inserts k0 [] ops = Ok bucket
       ∧ bucket = last_k k0 (remove_dups ops)
       ∧ Z.of_nat (length bucket) ≤ k0
       ∧ ∀ head rest y, bucket = head :: rest → y ∈ rest →
           touched_after ops head y).
Proof.
  intros Hk. split; [|split; [|split; [|split]]].
  - intros bucket id Hin. split; [by apply bucket_insert_present|].
    rewrite length_app. simpl.
    pose proof (list_remove_first_length id bucket Hin). lia.
  - intros bucket id Hnin Hlt. by apply bucket_insert_room.
  - intros bucket id Hnin Hge. rewrite bucket_insert_full by done.
    destruct bucket as [|head rest]; simpl in *; [lia|]. by exists head, rest.
  - intros bucket id Hlen.
    assert (∃ bucket', bucket_insert k0 bucket id = Ok bucket') as [bucket' Hb].
    { destruct (decide (id ∈ bucket)) as [Hin|Hnin].
      - rewrite bucket_insert_present by done. eauto.
      - destruct (Z.lt_ge_cases (Z.of_nat (length bucket)) k0) as [Hlt|Hge].
        + rewrite bucket_insert_room by done. eauto.
        + rewrite bucket_insert_full by done.
          destruct bucket; simpl in *; [lia|eauto]. }
    exists bucket'. split; [done|]. by eapply bucket_insert_length.
  - intros ops. exists (last_k k0 (remove_dups ops)).
    split; [by apply bucket_inserts_recent|]. split; [done|].
    split; [apply last_k_length; lia|].
    intros head rest y Hb Hy.
    destruct (last_k_split k0 (remove_dups ops)) as (older & Hsplit & _).
    rewrite Hb in Hsplit. by eapply remove_dups_touched_after.
Qed.

(** * Routing table *)

Lemma bucket_insert_elem_of k0 bucket id bucket' x :
  bucket_insert k0 bucket id = Ok bucket' → x ∈ bucket' → x ∈ bucket ∨ x = id.
Proof.
  unfold bucket_insert. destruct (decide (id ∈ bucket)) as [Hin|Hnin].
  - intros [= <-]. rewrite elem_of_app, list_elem_of_singleton.
    intros [Hx|Hx]; [left; by eapply list_remove_first_subseteq|by right].
  - destruct (Z.of_nat (length bucket) <? k0).
    + intros [= <-]. rewrite elem_of_app, list_elem_of_singleton. tauto.
    + destruct bucket as [|head rest]; simpl; [done|]. intros [= <-].
      rewrite elem_of_app, list_elem_of_singleton, elem_of_cons. tauto.
Qed.

Lemma bucket_insert_NoDup k0 bucket id bucket' :
  NoDup bucket → bucket_insert k0 bucket id = Ok bucket' → NoDup bucket'.
Proof.
  intros Hnd. unfold bucket_insert. destruct (decide (id ∈ bucket)) as [Hin|Hnin].
  - intros [= <-]. destruct (list_remove_first_NoDup id bucket Hnd) as [Hnd' Hid].
    apply NoDup_app. split; [done|]. split; [|apply NoDup_singleton].
    intros x Hx ->%list_elem_of_singleton. done.
  - destruct (Z.of_nat (length bucket) <? k0).
    + intros [= <-]. apply NoDup_app. split; [done|]. split; [|apply NoDup_singleton].
      intros x Hx ->%list_elem_of_singleton. done.
    + destruct bucket as [|head rest]; simpl; [done|]. intros [= <-].
      apply NoDup_cons in Hnd as [_ Hnd]. apply not_elem_of_cons in Hnin as [_ Hnin].
      apply NoDup_app. split; [done|]. split; [|apply NoDup_singleton].
      intros x Hx ->%list_elem_of_singleton. done.
Qed.

Lemma list_index_nonneg len i pos :
  0 ≤ i → list_index len i = Some pos → pos = Z.to_nat i ∧ i < Z.of_nat len.
Proof.
  intros Hi. unfold list_index.
  destruct (Z.leb_spec 0 i); [|lia].
  destruct (Z.ltb_spec i (Z.of_nat len)); [|done]. by intros [= <-].
Qed.

Lemma list_index_in_range len i :
  0 ≤ i < Z.of_nat len → list_index len i = Some (Z.to_nat i).
Proof.
  intros Hi. unfold list_index.
  destruct (Z.leb_spec 0 i); [|lia].
  destruct (Z.ltb_spec i (Z.of_nat len)); [done|lia].
Qed.

Lemma add_node_self self : add_node self (node_id self) = Ok self.
Proof. unfold add_node. by rewrite Z.eqb_refl. Qed.

(** What a successful [add_node] of another identifier does: one bucket,
    the one [bucket_index] selects, is replaced by [bucket_insert]'s
    result. *)
Lemma add_node_other self id self' :
  id ≠ node_id self → add_node self id = Ok self' →
  ∃ bucket bucket',
    let i := Z.to_nat (bucket_index (node_id self) id) in
    buckets self !! i = Some bucket
    ∧ bucket_insert (k self) bucket id = Ok bucket'
    ∧ self' = set_buckets self (<[i := bucket']> (buckets self)).
Proof.
  intros Hne. unfold add_node.
  destruct (Z.eqb_spec id (node_id self)); [done|].
  destruct (list_index _ _) as [pos|] eqn:Hpos; [|done].
  apply list_index_nonneg in Hpos as [-> _]; [|apply bucket_index_nonneg].
  destruct (buckets self !! _) as [bucket|] eqn:Hb; [|done].
  destruct (bucket_insert _ _ _) as [bucket'|] eqn:Hins; simpl; [|done].
  intros [= <-]. by exists bucket, bucket'.
Qed.

Lemma init_table_inv id k0 rnd : 0 ≤ k0 → table_inv (init id k0 rnd).
Proof.
  intros Hk. split; [done|]. intros i bucket Hb.
  change (replicate 160 [] !! i = Some bucket) in Hb.
  apply lookup_replicate in Hb as [-> _]. simpl.
  split; [done|]. split; [constructor|]. by intros x ?%elem_of_nil.
Qed.

Lemma add_node_table_inv self id self' :
  table_inv self → add_node self id = Ok self' → table_inv self'.
Proof.
  intros [Hlen Hinv] Hadd.
  destruct (decide (id = node_id self)) as [->|Hne].
  { rewrite add_node_self in Hadd. by injection Hadd as <-. }
  destruct (add_node_other self id self' Hne Hadd) as (bucket & bucket' & Hb & Hins & ->).
  cbv zeta in *. set (i := Z.to_nat (bucket_index (node_id self) id)) in *.
  destruct (Hinv i bucket Hb) as (Hcap & Hnd & Hmem).
  split; simpl; [by rewrite length_insert|].
  intros j bj Hj. destruct (decide (i = j)) as [<-|Hij].
  - rewrite list_lookup_insert_eq in Hj by (by eapply lookup_lt_Some).
    injection Hj as <-.
    split; [by eapply bucket_insert_length|].
    split; [by eapply bucket_insert_NoDup|].
    intros x Hx. destruct (bucket_insert_elem_of _ _ _ _ _ Hins Hx) as [Hold| ->].
    + by apply Hmem.
    + split; [done|]. unfold i. rewrite Z2Nat.id; [done|apply bucket_index_nonneg].
  - rewrite list_lookup_insert_ne in Hj by done. by apply Hinv.
Qed.

Lemma add_node_steps_table_inv start self :
  table_inv start → add_node_steps start self → table_inv self.
Proof.
  intros Hstart. induction 1 as [|self id self' _ IH Hadd]; [done|].
  by eapply add_node_table_inv.
Qed.

Lemma add_node_steps_fields start self :
  add_node_steps start self → node_id self = node_id start ∧ k self = k start.
Proof.
  induction 1 as [|self id self' _ [IHid IHk] Hadd]; [done|].
  destruct (decide (id = node_id self)) as [->|Hne].
  - rewrite add_node_self in Hadd. by injection Hadd as <-.
  - by destruct (add_node_other self id self' Hne Hadd) as (? & ? & _ & _ & ->).
Qed.

(** Insertion of a 160-bit identifier never raises on a node that has a
    160-bit identifier, 160 buckets and a capacity of at least one. *)
Lemma add_node_total self id :
  length (buckets self) = 160%nat → 0 < k self →
  is_id 160 (node_id self) → is_id 160 id →
  ∃ self', add_node self id = Ok self'.
Proof.
  intros Hlen Hk Hself Hid. unfold add_node.
  destruct (Z.eqb_spec id (node_id self)); [eauto|].
  pose proof (bucket_index_nonneg (node_id self) id) as Hge.
  pose proof (bucket_index_lt 160 _ _ ltac:(lia) Hself Hid) as Hlt.
  rewrite list_index_in_range by lia.
  destruct (lookup_lt_is_Some_2 (buckets self)
              (Z.to_nat (bucket_index (node_id self) id)) ltac:(lia)) as [bucket ->].
  assert (∃ bucket', bucket_insert (k self) bucket id = Ok bucket') as [bucket' ->];
    [|simpl; eauto].
  destruct (decide (id ∈ bucket)) as [Hin|Hnin].
  - rewrite bucket_insert_present by done. eauto.
  - destruct (Z.lt_ge_cases (Z.of_nat (length bucket)) (k self)) as [Hlt'|Hge'].
    + rewrite bucket_insert_room by done. eauto.
    + rewrite bucket_insert_full by done.
      destruct bucket; simpl in *; [lia|eauto].
Qed.

(** C5.  Every state reached from a freshly constructed node (capacity
    [k0 ≥ 0]) by [add_node] calls has buckets of length at most [k0] without
    duplicates, holds each identifier in at most one bucket, and never holds
    the node's own identifier.  Such states do arise: with [k0 ≥ 1] and a
    160-bit identifier of its own, the node accepts every 160-bit
    identifier. *)
Theorem routing_table_invariant (id : option Z) (k0 rnd : Z) (self : KademliaNode) :
  0 ≤ k0 → add_node_steps (init id k0 rnd) self →
  (∀ i bucket, buckets self !! i = Some bucket →
     Z.of_nat (length bucket) ≤ k0 ∧ NoDup bucket)
  ∧ (∀ i j bucket_i bucket_j x,
       buckets self !! i = Some bucket_i → buckets self !! j = Some bucket_j →
       x ∈ bucket_i → x ∈ bucket_j → i = j)
  ∧ (∀ i bucket, buckets self !! i = Some bucket → node_id self ∉ bucket)
  ∧ (∀ other, 0 < k0 → is_id 160 (node_id self) → is_id 160 other →
       ∃ self', add_node self other = Ok self').
Proof.
  intros Hk Hsteps.
  pose proof (add_node_steps_table_inv _ _ (init_table_inv id k0 rnd Hk) Hsteps)
    as [Hlen Hinv].
  destruct (add_node_steps_fields _ _ Hsteps) as [_ Hk0]. simpl in Hk0.
  split; [|split; [|split]].
  - intros i bucket Hb. destruct (Hinv i bucket Hb) as (Hcap & Hnd & _).
    rewrite <- Hk0. done.
  - intros i j bi bj x Hi Hj Hxi Hxj.
    destruct (Hinv i bi Hi) as (_ & _ & Hmi). destruct (Hinv j bj Hj) as (_ & _ & Hmj).
    destruct (Hmi x Hxi) as [_ Ei]. destruct (Hmj x Hxj) as [_ Ej]. lia.
  - intros i bucket Hb Hin. destruct (Hinv i bucket Hb) as (_ & _ & Hm).
    by destruct (Hm _ Hin).
  - intros other Hpos Hself Hother. apply add_node_total; [done|lia|done|done].
Qed.

(** * Sorting and closest-node selection *)

Section SortFacts.
Context {A : Type} (key : A → Z).

Lemma sort_insert_Permutation x l : sort_insert key x l ≡ₚ x :: l.
Proof.
  induction l as [|y l IH]; simpl; [done|].
  destruct (key x <=? key y); [done|]. rewrite IH. apply Permutation_swap.
Qed.

Lemma sort_by_Permutation l : sort_by key l ≡ₚ l.
Proof.
  induction l as [|x l IH]; simpl; [done|].
  rewrite sort_insert_Permutation. by rewrite IH.
Qed.

Lemma sort_insert_sorted x l :
  StronglySorted (λ a b, key a ≤ key b) l →
  StronglySorted (λ a b, key a ≤ key b) (sort_insert key x l).
Proof.
  induction 1 as [|y l Hl IH Hy]; simpl.
  - by repeat constructor.
  - destruct (Z.leb_spec (key x) (key y)) as [Hle|Hgt].
    + constructor; [by constructor|]. constructor; [done|].
      eapply Forall_impl; [exact Hy|]. simpl. intros z Hz. lia.
    + constructor; [done|].
      rewrite sort_insert_Permutation. constructor; [lia|done].
Qed.

Lemma sort_by_sorted l : StronglySorted (λ a b, key a ≤ key b) (sort_by key l).
Proof.
  induction l as [|x l IH]; simpl; [constructor|]. by apply sort_insert_sorted.
Qed.

(** Stability: elements with equal keys keep their relative order.
    Together with [sort_by_sorted] and [sort_by_Permutation] this fixes
    the result of the sort. *)
Lemma sort_insert_stable v x l :
  filter (λ a, key a = v) (sort_insert key x l) = filter (λ a, key a = v) (x :: l).
Proof.
  induction l as [|y l IH]; simpl; [done|].
  destruct (Z.leb_spec (key x) (key y)) as [Hle|Hgt]; [done|].
  rewrite filter_cons, IH, !filter_cons.
  repeat case_decide; try done; lia.
Qed.

Lemma sort_by_stable v l :
  filter (λ a, key a = v) (sort_by key l) = filter (λ a, key a = v) l.
Proof.
  induction l as [|x l IH]; simpl; [done|].
  by rewrite sort_insert_stable, !filter_cons, IH.
Qed.
End SortFacts.

Lemma StronglySorted_take {A} (R : A → A → Prop) n l :
  StronglySorted R l → StronglySorted R (take n l).
Proof.
  intros Hl. revert n. induction Hl as [|x l Hl IH Hx]; intros [|n]; simpl;
    try constructor; [apply IH|].
  apply Forall_take. done.
Qed.

Lemma slice_to_nonneg {A} (l : list A) count :
  0 ≤ count → slice_to l count = take (Z.to_nat count) l.
Proof. intros Hc. unfold slice_to. by destruct (Z.leb_spec 0 count); [|lia]. Qed.

Lemma slice_to_length {A} (l : list A) count :
  0 ≤ count → Z.of_nat (length (slice_to l count)) = Z.min count (Z.of_nat (length l)).
Proof. intros Hc. rewrite slice_to_nonneg, length_take by done. lia. Qed.

Lemma slice_to_prefix {A} (l : list A) count : slice_to l count `prefix_of` l.
Proof. unfold slice_to. destruct (0 <=? count); apply prefix_take. Qed.

Lemma slice_to_all {A} (l : list A) count :
  Z.of_nat (length l) ≤ count → slice_to l count = l.
Proof. intros Hc. rewrite slice_to_nonneg by lia. apply take_ge. lia. Qed.

Lemma find_closest_nodes_count self target count :
  count ≠ 0 →
  find_closest_nodes self target (Some count) =
  slice_to (sort_by (distance target) (all_nodes self)) count.
Proof.
  intros Hc. unfold find_closest_nodes. by destruct (Z.eqb_spec count 0).
Qed.

Lemma find_closest_nodes_default self target :
  find_closest_nodes self target None =
  slice_to (sort_by (distance target) (all_nodes self)) (k self).
Proof. done. Qed.

Lemma find_closest_nodes_zero self target :
  find_closest_nodes self target (Some 0) = find_closest_nodes self target None.
Proof. done. Qed.

Lemma find_closest_nodes_sorted self target count :
  sorted_by_distance target (find_closest_nodes self target count).
Proof.
  unfold find_closest_nodes, slice_to.
  destruct (0 <=? _); apply StronglySorted_take, sort_by_sorted.
Qed.

Lemma find_closest_nodes_elem_of self target count x :
  x ∈ find_closest_nodes self target count → x ∈ all_nodes self.
Proof.
  unfold find_closest_nodes. intros Hx.
  eapply elem_of_prefix in Hx; [|apply slice_to_prefix].
  by rewrite sort_by_Permutation in Hx.
Qed.

(** For a requested count [n ≥ 1], [find_closest_nodes] returns the first
    [min n total] members in ascending distance to the target, and all the
    members when [n] is at least their number. *)
Lemma find_closest_nodes_spec self target n :
  1 ≤ n →
  let found := find_closest_nodes self target (Some n) in
  let total := Z.of_nat (length (all_nodes self)) in
  sorted_by_distance target found
  ∧ found `prefix_of` sort_by (distance target) (all_nodes self)
  ∧ sort_by (distance target) (all_nodes self) ≡ₚ all_nodes self
  ∧ Z.of_nat (length found) = Z.min n total
  ∧ (total ≤ n → found ≡ₚ all_nodes self).
Proof.
  intros Hn found total.
  split; [apply find_closest_nodes_sorted|].
  unfold found. rewrite find_closest_nodes_count by lia.
  split; [apply slice_to_prefix|].
  split; [apply sort_by_Permutation|].
  assert (length (sort_by (distance target) (all_nodes self)) = length (all_nodes self))
    as Hlen by (by rewrite sort_by_Permutation).
  split.
  - rewrite slice_to_length by lia. by rewrite Hlen.
  - intros Htotal. rewrite slice_to_all by (rewrite Hlen; done).
    apply sort_by_Permutation.
Qed.

(** C10.  An explicit count of [0] is replaced by the capacity [k]: the
    call returns what the call without a count returns, which for [k ≥ 0]
    is the first [min k total] members in ascending distance, and is not
    empty when [k ≥ 1] and the table is not empty. *)
Theorem find_closest_nodes_count_zero (self : KademliaNode) (target : Z) :
  let found := find_closest_nodes self target (Some 0) in
  let nearest := sort_by (distance target) (all_nodes self) in
  let total := Z.of_nat (length (all_nodes self)) in
  found = find_closest_nodes self target None
  ∧ (0 ≤ k self →
     found = take (Z.to_nat (Z.min (k self) total)) nearest
     ∧ Z.of_nat (length found) = Z.min (k self) total)
  ∧ (0 < k self → all_nodes self ≠ [] → found ≠ []).
Proof.
  intros found nearest total.
  assert (length nearest = length (all_nodes self)) as Hlen
    by (unfold nearest; by rewrite sort_by_Permutation).
  assert (0 ≤ k self → Z.of_nat (length found) = Z.min (k self) total) as Hcount.
  { intros Hk. unfold found. rewrite find_closest_nodes_zero, find_closest_nodes_default.
    rewrite slice_to_length by done. fold nearest. by rewrite Hlen. }
  split; [apply find_closest_nodes_zero|]. split.
  - intros Hk. split; [|by apply Hcount].
    unfold found. rewrite find_closest_nodes_zero, find_closest_nodes_default.
    rewrite slice_to_nonneg by done. fold nearest.
    apply list_eq. intros i. rewrite !lookup_take.
    repeat case_decide; try done; try lia.
    apply lookup_ge_None. lia.
  - intros Hk Hne Hnil. specialize (Hcount ltac:(lia)). rewrite Hnil in Hcount.
    destruct (all_nodes self) eqn:Hall; [done|]. unfold total in Hcount.
    simpl in Hcount. lia.
Qed.

(** * Local storage *)

Lemma find_value_store sha1 self key value :
  find_value sha1 (store sha1 self key value) key = Some value.
Proof. unfold find_value, store. simpl. apply lookup_insert_eq. Qed.

Lemma store_store sha1 self key value1 value2 :
  store sha1 (store sha1 self key value1) key value2 = store sha1 self key value2.
Proof. unfold store, set_storage. simpl. by rewrite insert_insert_eq. Qed.

(** C6.  [find_value] after [store] of the same key returns the stored
    value, a second [store] of that key replaces the first, and
    [find_value] of a key that is not in the storage returns [None], an
    ordinary result. *)
Theorem store_find_value (sha1 : string → Z) (self : KademliaNode)
    (key value1 value2 : string) :
  find_value sha1 (store sha1 self key value1) key = Some value1
  ∧ find_value sha1 (store sha1 (store sha1 self key value1) key value2) key
    = Some value2
  ∧ store sha1 (store sha1 self key value1) key value2 = store sha1 self key value2
  ∧ (storage self !! sha1 key = None → find_value sha1 self key = None).
Proof.
  split; [apply find_value_store|].
  split; [apply find_value_store|].
  split; [apply store_store|]. done.
Qed.

(** * Self insertion *)

(** C8, as the code has it.  [add_node] of the node's own identifier
    returns normally and leaves the node as it was; it does not raise. *)
Theorem add_node_own_id_noop (self : KademliaNode) :
  add_node self (node_id self) = Ok self
  ∧ ¬ raises (add_node self (node_id self)).
Proof.
  rewrite add_node_self. split; [done|]. by intros [e He].
Qed.

(** * Lookup *)

Section LookupFacts.
Variable sha1 : string → Z.

Lemma truthy_nonempty v : v ≠ EmptyString → truthy (Some v) = true.
Proof. intros Hv. simpl. by destruct (String.eqb_spec v EmptyString). Qed.

Lemma truthy_false v : truthy v = false ↔ v = Some EmptyString ∨ v = None.
Proof.
  destruct v as [s|]; simpl; [|by split; [right|]].
  destruct (String.eqb_spec s EmptyString) as [->|Hne]; simpl.
  - by split; [left|].
  - split; [done|]. intros [[= ->]|?]; done.
Qed.

Lemma lookup_unregistered nodes id key :
  nodes !! id = None → lookup sha1 nodes id key = None.
Proof. intros Hid. unfold lookup. by rewrite Hid. Qed.

Lemma lookup_local nodes id key origin v :
  nodes !! id = Some origin → find_value sha1 origin key = Some v →
  v ≠ EmptyString → lookup sha1 nodes id key = Some v.
Proof.
  intros Hid Hv Hne. unfold lookup. rewrite Hid. cbv zeta.
  by rewrite Hv, truthy_nonempty.
Qed.

Lemma lookup_remote nodes id key origin :
  nodes !! id = Some origin → truthy (find_value sha1 origin key) = false →
  lookup sha1 nodes id key =
  lookup_candidates sha1 nodes key (find_closest_nodes origin (sha1 key) None).
Proof. intros Hid Hv. unfold lookup. rewrite Hid. cbv zeta. by rewrite Hv. Qed.

(** The candidate loop returns the value of the first candidate that is
    registered and holds a non-empty value; unregistered candidates and
    candidates without such a value are passed over. *)
Lemma lookup_candidates_first nodes key skipped c n v rest :
  (∀ c' n', c' ∈ skipped → nodes !! c' = Some n' →
     truthy (find_value sha1 n' key) = false) →
  nodes !! c = Some n → find_value sha1 n key = Some v → v ≠ EmptyString →
  lookup_candidates sha1 nodes key (skipped ++ c :: rest) = Some v.
Proof.
  intros Hskip Hc Hv Hne. induction skipped as [|c' skipped IH]; simpl.
  - by rewrite Hc, Hv, truthy_nonempty.
  - assert (lookup_candidates sha1 nodes key (skipped ++ c :: rest) = Some v) as IH'.
    { apply IH. intros c'' n'' Hin. apply Hskip. by right. }
    destruct (nodes !! c') as [n'|] eqn:Hc'; [|done].
    by rewrite (Hskip c' n' ltac:(by left) Hc').
Qed.

Lemma lookup_candidates_none nodes key closest :
  (∀ c n, c ∈ closest → nodes !! c = Some n →
     truthy (find_value sha1 n key) = false) →
  lookup_candidates sha1 nodes key closest = None.
Proof.
  induction closest as [|c closest IH]; intros Hall; simpl; [done|].
  assert (lookup_candidates sha1 nodes key closest = None) as IH'.
  { apply IH. intros c' n' Hin. apply Hall. by right. }
  destruct (nodes !! c) as [n|] eqn:Hc; [|done].
  by rewrite (Hall c n ltac:(by left) Hc).
Qed.
End LookupFacts.

(** Entries holding the empty string do not count: removing them from
    every node leaves the result of [lookup] as it is. *)
Lemma find_value_drop_empty_value sha1 key self :
  find_value sha1 (drop_empty_value (sha1 key) self) key =
  if truthy (find_value sha1 self key) then find_value sha1 self key else None.
Proof.
  unfold find_value, drop_empty_value. cbv zeta.
  destruct (storage self !! sha1 key) as [value|] eqn:Hv; simpl; [|by rewrite Hv].
  destruct (String.eqb value EmptyString); simpl; [apply lookup_delete_eq|done].
Qed.

Lemma truthy_drop_empty_value sha1 key self :
  truthy (find_value sha1 (drop_empty_value (sha1 key) self) key) =
  truthy (find_value sha1 self key).
Proof.
  rewrite find_value_drop_empty_value.
  by destruct (truthy (find_value sha1 self key)) eqn:Ht.
Qed.

Lemma find_closest_nodes_drop_empty_value key_hash self target count :
  find_closest_nodes (drop_empty_value key_hash self) target count =
  find_closest_nodes self target count.
Proof.
  unfold drop_empty_value. destruct (storage self !! key_hash) as [value|]; [|done].
  by destruct (String.eqb value EmptyString).
Qed.

Lemma lookup_candidates_drop_empty_value sha1 nodes key closest :
  lookup_candidates sha1 (drop_empty_value (sha1 key) <$> nodes) key closest =
  lookup_candidates sha1 nodes key closest.
Proof.
  induction closest as [|c closest IH]; simpl; [done|].
  rewrite lookup_fmap. destruct (nodes !! c) as [n|]; simpl; [|done].
  rewrite truthy_drop_empty_value, find_value_drop_empty_value, IH.
  by destruct (truthy (find_value sha1 n key)).
Qed.

Lemma lookup_drop_empty_value sha1 nodes id key :
  lookup sha1 (drop_empty_value (sha1 key) <$> nodes) id key =
  lookup sha1 nodes id key.
Proof.
  unfold lookup. rewrite lookup_fmap.
  destruct (nodes !! id) as [origin|]; simpl; [|done].
  rewrite truthy_drop_empty_value, find_value_drop_empty_value.
  rewrite find_closest_nodes_drop_empty_value, lookup_candidates_drop_empty_value.
  by destruct (truthy (find_value sha1 origin key)).
Qed.

(** C9.  When the origin is registered and every node the lookup consults
    (the origin and each registered candidate) holds the empty string for
    the key or does not hold the key, [lookup] returns [None]; yet
    [find_value] on a node that stored the empty string returns it.  In
    general [lookup] treats an entry holding the empty string as no entry:
    its result is the same on the registry with those entries removed. *)
Theorem lookup_empty_value_not_found (sha1 : string → Z)
    (nodes : gmap Z KademliaNode) (id : Z) (key : string) (origin : KademliaNode) :
  nodes !! id = Some origin →
  (find_value sha1 origin key = Some EmptyString ∨ find_value sha1 origin key = None) →
  (∀ c n, c ∈ find_closest_nodes origin (sha1 key) None → nodes !! c = Some n →
     find_value sha1 n key = Some EmptyString ∨ find_value sha1 n key = None) →
  lookup sha1 nodes id key = None
  ∧ (∀ n, find_value sha1 (store sha1 n key EmptyString) key = Some EmptyString)
  ∧ lookup sha1 (drop_empty_value (sha1 key) <$> nodes) id key
    = lookup sha1 nodes id key.
Proof.
  intros Hid Horigin Hcands.
  split; [|split; [intros n; apply find_value_store|apply lookup_drop_empty_value]].
  rewrite (lookup_remote sha1 nodes id key origin Hid) by (by apply truthy_false).
  apply lookup_candidates_none. intros c n Hc Hn. apply truthy_false. eauto.
Qed.

(** The candidate path of [lookup], and a candidate that is no longer
    registered: [X] knows [Y], [Y] holds the value.  With [Y] registered the
    value is found through [X]'s routing table; without it the stale
    identifier is passed over and the lookup returns [None]. *)
Example lookup_remote_candidate :
  let y := store key_length node_y "k2" "v2" in
  let nodes := dht_add_node (dht_add_node ∅ node_x_knows_y) y in
  add_node node_x 32 = Ok node_x_knows_y
  ∧ lookup key_length nodes 16 "k2" = Some "v2"%string
  ∧ lookup key_length (delete 32 nodes) 16 "k2" = None.
Proof. repeat split; vm_compute; reflexivity. Qed.

(** C1, at an input where the code departs from it.  The origin is
    registered and its storage holds the key, with the empty string as
    value: [find_value] returns that value, [lookup] returns [None]. *)
Theorem lookup_misses_empty_local_value (sha1 : string → Z) :
  let origin := store sha1 node_x "k1" EmptyString in
  let nodes := dht_add_node ∅ origin in
  nodes !! 16 = Some origin
  ∧ find_value sha1 origin "k1" = Some EmptyString
  ∧ lookup sha1 nodes 16 "k1" = None.
Proof.
  intros origin nodes.
  assert (nodes !! 16 = Some origin) as Hreg by apply lookup_insert_eq.
  assert (find_value sha1 origin "k1" = Some EmptyString) as Hval
    by apply find_value_store.
  split; [done|]. split; [done|].
  rewrite (lookup_remote sha1 nodes 16 "k1" origin Hreg) by (by rewrite Hval).
  done.
Qed.

(** C2, at an input where the code departs from it.  [X] knows one
    identifier; a requested count of [0] returns that identifier, a list of
    length [1], where [min(0, totalKnown)] is [0]. *)
Theorem find_closest_nodes_zero_returns_members :
  add_node node_x 32 = Ok node_x_knows_y
  ∧ all_nodes node_x_knows_y = [32]
  ∧ find_closest_nodes node_x_knows_y 0 (Some 0) = [32]
  ∧ Z.min 0 (Z.of_nat (length (all_nodes node_x_knows_y))) = 0.
Proof. repeat split; vm_compute; reflexivity. Qed.

(** C8 as stated fails: inserting [X]'s own identifier into [X] does not
    raise. *)
Lemma add_node_own_id_not_loud : ¬ raises (add_node node_x (node_id node_x)).
Proof. intros [e He]. vm_compute in He. discriminate He. Qed.

(** * Instances *)

(** The distance properties on 8-bit identifiers [0x10], [0x20], [0x30]. *)
Lemma distance_metric_witness :
  (0 ≤ 8 ∧ is_id 8 16 ∧ is_id 8 32 ∧ is_id 8 48)
  ∧ distance 16 32 = distance 32 16
  ∧ (distance 16 32 = 0 ↔ 16 = 32)
  ∧ distance 16 48 ≤ distance 16 32 + distance 32 48
  ∧ ∀ d, is_id 8 d →
      ∃ b', (is_id 8 b' ∧ distance 16 b' = d) ∧ ∀ b'', distance 16 b'' = d → b'' = b'.
Proof.
  assert (is_id 8 16 ∧ is_id 8 32 ∧ is_id 8 48) as (H16 & H32 & H48)
    by (unfold is_id; lia).
  split; [repeat split; (lia || apply H16 || apply H32 || apply H48)|].
  apply (distance_metric 8 16 32 48); [lia|exact H16|exact H32|exact H48].
Defined.

(** Bucket indices of [0x20] and [0x50] seen from [0x10]. *)
Lemma bucket_index_spec_witness :
  (0 < 160 ∧ is_id 160 16 ∧ is_id 160 32 ∧ is_id 160 80)
  ∧ (distance 16 32 ≠ 0 → distance 16 80 ≠ 0 → distance 16 32 < distance 16 80 →
     bucket_index 16 32 ≤ bucket_index 16 80)
  ∧ bucket_index 16 32 =
      (if distance 16 32 =? 0 then 0 else bit_length (distance 16 32) - 1)
  ∧ 0 ≤ bucket_index 16 32 < 160.
Proof.
  assert (is_id 160 16 ∧ is_id 160 32 ∧ is_id 160 80) as (H16 & H32 & H80)
    by (unfold is_id; lia).
  split; [repeat split; (lia || apply H16 || apply H32 || apply H80)|].
  apply (bucket_index_spec 160 16 32 80); [lia|exact H16|exact H32|exact H80].
Defined.

(** Capacity 2: touching [1, 2, 1, 3] leaves [1, 3], and inserting [3] into
    the full bucket [1, 2] evicts its head. *)
Lemma bucket_insert_policy_witness :
  0 < 2
  ∧ bucket_inserts 2 [] [1; 2; 1; 3] = Ok [1; 3]
  ∧ ∃ head rest, [1; 2] = head :: rest ∧ bucket_insert 2 [1; 2] 3 = Ok (rest ++ [3]).
Proof.
  pose proof (bucket_insert_policy 2 ltac:(lia)) as (_ & _ & Hfull & _ & Hseq).
  split; [lia|]. split.
  - destruct (Hseq [1; 2; 1; 3]) as (bucket & Hrun & -> & _). exact Hrun.
  - apply Hfull; [|simpl; lia].
    intros Hin. apply elem_of_cons in Hin as [Hin|Hin]; [discriminate Hin|].
    apply elem_of_cons in Hin as [Hin|Hin]; [discriminate Hin|].
    by apply elem_of_nil in Hin.
Defined.

(** The invariant on [X] after it has learnt of [Y]. *)
Lemma routing_table_invariant_witness :
  (0 ≤ 20 ∧ add_node_steps (init (Some 16) 20 0) node_x_knows_y)
  ∧ (∀ i bucket, buckets node_x_knows_y !! i = Some bucket →
       Z.of_nat (length bucket) ≤ 20 ∧ NoDup bucket)
  ∧ (∀ i j bucket_i bucket_j x,
       buckets node_x_knows_y !! i = Some bucket_i →
       buckets node_x_knows_y !! j = Some bucket_j →
       x ∈ bucket_i → x ∈ bucket_j → i = j)
  ∧ (∀ i bucket, buckets node_x_knows_y !! i = Some bucket →
       node_id node_x_knows_y ∉ bucket)
  ∧ (∀ other, 0 < 20 → is_id 160 (node_id node_x_knows_y) → is_id 160 other →
       ∃ self', add_node node_x_knows_y other = Ok self').
Proof.
  assert (add_node_steps (init (Some 16) 20 0) node_x_knows_y) as Hsteps.
  { apply (steps_add _ (init (Some 16) 20 0) 32); [apply steps_done|].
    vm_compute. reflexivity. }
  split; [split; [lia|exact Hsteps]|].
  apply (routing_table_invariant (Some 16) 20 0 node_x_knows_y); [lia|exact Hsteps].
Defined.

(** A miss and a hit on [X]'s storage. *)
Lemma store_find_value_witness :
  storage node_x !! key_length "k1" = None
  ∧ find_value key_length node_x "k1" = None
  ∧ find_value key_length (store key_length node_x "k1" "v1") "k1" = Some "v1"%string.
Proof.
  pose proof (store_find_value key_length node_x "k1" "v1" "v2")
    as (Hfound & _ & _ & Hmiss).
  assert (storage node_x !! key_length "k1" = None) as Habsent by reflexivity.
  split; [exact Habsent|]. split; [exact (Hmiss Habsent)|exact Hfound].
Defined.

(** A count of [0] on [X], which knows [Y], returns [Y]. *)
Lemma find_closest_nodes_count_zero_witness :
  (0 ≤ k node_x_knows_y ∧ all_nodes node_x_knows_y ≠ [])
  ∧ find_closest_nodes node_x_knows_y 0 (Some 0) = take 1 [32]
  ∧ find_closest_nodes node_x_knows_y 0 (Some 0) ≠ [].
Proof.
  pose proof (find_closest_nodes_count_zero node_x_knows_y 0) as (_ & Hmin & Hne).
  assert (0 ≤ k node_x_knows_y) as Hk by (simpl; lia).
  assert (all_nodes node_x_knows_y ≠ []) as Hall by (vm_compute; discriminate).
  split; [split; [exact Hk|exact Hall]|].
  split; [exact (proj1 (Hmin Hk))|].
  apply Hne; [simpl; lia|exact Hall].
Defined.

(** [Y] holds the empty string for the key; the lookup from [X] reaches [Y]
    and returns [None]. *)
Lemma lookup_empty_value_not_found_witness :
  let y := store key_length node_y "k2" EmptyString in
  let nodes := dht_add_node (dht_add_node ∅ node_x_knows_y) y in
  nodes !! 16 = Some node_x_knows_y
  ∧ find_value key_length y "k2" = Some EmptyString
  ∧ lookup key_length nodes 16 "k2" = None.
Proof.
  intros y nodes.
  assert (nodes !! 16 = Some node_x_knows_y) as Hreg by (vm_compute; reflexivity).
  split; [exact Hreg|]. split; [vm_compute; reflexivity|].
  apply (lookup_empty_value_not_found key_length nodes 16 "k2" node_x_knows_y Hreg).
  - right. vm_compute. reflexivity.
  - intros c n Hc Hn.
    assert (c = 32) as ->.
    { vm_compute in Hc. apply elem_of_cons in Hc as [Hc|Hc]; [exact Hc|].
      by apply elem_of_nil in Hc. }
    assert (n = y) as -> by (vm_compute in Hn; by injection Hn as <-).
    left. vm_compute. reflexivity.
Defined.

(** * Further properties of the routing table *)

Lemma bucket_index_log2 self_id other i :
  0 < distance self_id other →
  bucket_index self_id other = i ↔ 2 ^ i ≤ distance self_id other < 2 ^ (i + 1).
Proof.
  intros Hd. rewrite bucket_index_pos by done. split.
  - intros <-. pose proof (Z.log2_spec _ Hd). by rewrite <- Z.add_1_r in *.
  - intros Hi. apply Z.log2_unique; [|done].
    destruct (Z.lt_ge_cases i 0) as [Hneg|]; [|done].
    assert (2 ^ (i + 1) ≤ 1); [|lia].
    destruct (Z.eq_dec i (-1)) as [->|]; [done|].
    rewrite Z.pow_neg_r; lia.
Qed.

(** X1.  Bucket [i] is the distance range [[2^i, 2^(i+1))]: for a positive
    distance, [bucket_index] returns [i] exactly when the distance lies in
    that range; a distance that is not positive selects bucket [0]; and the
    identifier that differs from the owner's in bit [i] alone selects bucket
    [i]. *)
Theorem bucket_index_range (self_id other i : Z) :
  (0 < distance self_id other →
   (bucket_index self_id other = i ↔
    2 ^ i ≤ distance self_id other < 2 ^ (i + 1)))
  ∧ (distance self_id other ≤ 0 → bucket_index self_id other = 0)
  ∧ (0 ≤ i → bucket_index self_id (Z.lxor self_id (2 ^ i)) = i).
Proof.
  split; [apply bucket_index_log2|]. split; [apply bucket_index_nonpos|].
  intros Hi.
  assert (distance self_id (Z.lxor self_id (2 ^ i)) = 2 ^ i) as Hd
    by apply distance_cancel.
  assert (0 < 2 ^ i) by (apply Z.pow_pos_nonneg; lia).
  rewrite bucket_index_pos by lia. rewrite Hd. by apply Z.log2_pow2.
Qed.

Lemma bucket_insert_raises k0 bucket id :
  raises (bucket_insert k0 bucket id) ↔ bucket = [] ∧ k0 ≤ 0.
Proof.
  unfold bucket_insert. destruct (decide (id ∈ bucket)) as [Hin|Hnin].
  - split; [by intros [e ?]|]. intros [-> _]. by apply elem_of_nil in Hin.
  - destruct (Z.ltb_spec (Z.of_nat (length bucket)) k0) as [Hlt|Hge].
    + split; [by intros [e ?]|]. intros [-> ?]. simpl in Hlt. lia.
    + destruct bucket as [|head rest]; simpl.
      * split; [intros _; split; [done|simpl in Hge; lia]|by exists IndexError].
      * split; [by intros [e ?]|by intros [? _]].
Qed.

(** X2.  On a table of 160 buckets, [add_node] raises exactly when the
    identifier is not the owner's and either its distance from the owner
    needs more than 160 bits, or the capacity is not positive and the bucket
    selected is empty. *)
Theorem add_node_raises_iff (self : KademliaNode) (id : Z) :
  length (buckets self) = 160%nat →
  raises (add_node self id) ↔
  id ≠ node_id self
  ∧ (2 ^ 160 ≤ distance (node_id self) id
     ∨ (k self ≤ 0
        ∧ buckets self !! Z.to_nat (bucket_index (node_id self) id) = Some [])).
Proof.
  intros Hlen. unfold add_node.
  destruct (Z.eqb_spec id (node_id self)) as [->|Hne].
  { split; [by intros [e ?]|by intros [? _]]. }
  pose proof (bucket_index_nonneg (node_id self) id) as Hge.
  set (idx := bucket_index (node_id self) id) in *.
  assert (160 ≤ idx ↔ 2 ^ 160 ≤ distance (node_id self) id) as Hwide.
  { destruct (Z.lt_ge_cases 0 (distance (node_id self) id)) as [Hpos|Hnp].
    - unfold idx. rewrite bucket_index_pos by done. symmetry.
      by apply Z.log2_le_pow2.
    - unfold idx. rewrite bucket_index_nonpos by done. split; lia. }
  destruct (Z.lt_ge_cases idx 160) as [Hin|Hout].
  - rewrite list_index_in_range by lia.
    destruct (lookup_lt_is_Some_2 (buckets self) (Z.to_nat idx) ltac:(lia))
      as [bucket Hb].
    rewrite Hb.
    assert (raises (bucket' ← bucket_insert (k self) bucket id;
                    Ok (set_buckets self (<[Z.to_nat idx:=bucket']> (buckets self))))
            ↔ raises (bucket_insert (k self) bucket id)) as ->.
    { destruct (bucket_insert (k self) bucket id) as [b|e0]; simpl;
        split; intros [e He]; first [discriminate He|by exists e0]. }
    rewrite bucket_insert_raises. split.
    + intros [-> Hk]. split; [done|]. by right.
    + intros [_ [Hw|[Hk [= ->]]]]; [lia|done].
  - assert (list_index (length (buckets self)) idx = None) as ->.
    { unfold list_index. destruct (Z.leb_spec 0 idx); [|lia].
      destruct (Z.ltb_spec idx (Z.of_nat (length (buckets self)))); [lia|done]. }
    split; [|by exists IndexError]. intros _. split; [done|]. left. by apply Hwide.
Qed.

(** X3.  A successful [add_node] of another identifier leaves the owner's
    identifier, capacity and storage as they were, keeps the number of
    buckets, leaves every bucket but the selected one untouched, and puts
    the identifier at the tail of the selected bucket. *)
Theorem add_node_effect (self : KademliaNode) (id : Z) (self' : KademliaNode) :
  id ≠ node_id self → add_node self id = Ok self' →
  let i := Z.to_nat (bucket_index (node_id self) id) in
  node_id self' = node_id self ∧ k self' = k self ∧ storage self' = storage self
  ∧ length (buckets self') = length (buckets self)
  ∧ (∀ j, j ≠ i → buckets self' !! j = buckets self !! j)
  ∧ (∃ front, buckets self' !! i = Some (front ++ [id]))
  ∧ id ∈ all_nodes self'.
Proof.
  intros Hne Hadd i.
  destruct (add_node_other self id self' Hne Hadd) as (bucket & bucket' & Hb & Hins & ->).
  cbv zeta in Hb, Hins. fold i in Hb. fold i.
  assert (∃ front, bucket' = front ++ [id]) as [front ->].
  { revert Hins. unfold bucket_insert. destruct (decide (id ∈ bucket)).
    - intros [= <-]. eauto.
    - destruct (_ <? _); [intros [= <-]; eauto|].
      destruct bucket; simpl; [done|]. intros [= <-]. eauto. }
  assert (<[i:=front ++ [id]]> (buckets self) !! i = Some (front ++ [id])) as Hi.
  { apply list_lookup_insert_eq. by eapply lookup_lt_Some. }
  simpl. repeat split; try done.
  - apply length_insert.
  - intros j Hj. by apply list_lookup_insert_ne.
  - by exists front.
  - unfold all_nodes. simpl. apply list_elem_of_In, in_concat.
    exists (front ++ [id]). split.
    + apply list_elem_of_In. by eapply list_elem_of_lookup_2.
    + apply list_elem_of_In, elem_of_app. right. by apply list_elem_of_singleton.
Qed.

(** X4.  Inserting the same identifier a second time changes nothing more:
    on a table whose buckets have no duplicates, [add_node] applied to its
    own successful result returns that result. *)
Theorem add_node_again (self : KademliaNode) (id : Z) (self' : KademliaNode) :
  (∀ i bucket, buckets self !! i = Some bucket → NoDup bucket) →
  add_node self id = Ok self' → add_node self' id = Ok self'.
Proof.
  intros Hnd Hadd. destruct (decide (id = node_id self)) as [->|Hne].
  { rewrite add_node_self in Hadd. injection Hadd as <-. apply add_node_self. }
  destruct (add_node_other self id self' Hne Hadd) as (bucket & bucket' & Hb & Hins & ->).
  cbv zeta in Hb, Hins. set (i := Z.to_nat (bucket_index (node_id self) id)) in *.
  pose proof (lookup_lt_Some _ _ _ Hb) as Hi.
  pose proof (bucket_insert_NoDup _ _ _ _ (Hnd _ _ Hb) Hins) as Hnd'.
  assert (∃ front, bucket' = front ++ [id]) as [front ->].
  { revert Hins. unfold bucket_insert. destruct (decide (id ∈ bucket)).
    - intros [= <-]. eauto.
    - destruct (_ <? _); [intros [= <-]; eauto|].
      destruct bucket; simpl; [done|]. intros [= <-]. eauto. }
  assert (id ∉ front) as Hfront.
  { apply NoDup_app in Hnd' as (_ & Hdisj & _). intros Hin.
    apply (Hdisj id Hin). by apply list_elem_of_singleton. }
  unfold add_node. simpl. destruct (Z.eqb_spec id (node_id self)); [done|].
  fold i. rewrite list_index_in_range
    by (rewrite length_insert; pose proof (bucket_index_nonneg (node_id self) id); lia).
  fold i. rewrite list_lookup_insert_eq by done.
  rewrite bucket_insert_present
    by (apply elem_of_app; right; by apply list_elem_of_singleton).
  rewrite list_remove_first_app_r by done. simpl.
  destruct (decide (id = id)); [|done]. rewrite app_nil_r. simpl.
  unfold set_buckets. simpl. by rewrite list_insert_insert_eq.
Qed.

Lemma elem_of_all_nodes self x :
  x ∈ all_nodes self ↔ ∃ i bucket, buckets self !! i = Some bucket ∧ x ∈ bucket.
Proof.
  unfold all_nodes. rewrite list_elem_of_In, in_concat. split.
  - intros (bucket & Hb & Hx). apply list_elem_of_In, list_elem_of_lookup in Hb as [i Hi].
    exists i, bucket. split; [done|]. by apply list_elem_of_In.
  - intros (i & bucket & Hi & Hx). exists bucket.
    split; apply list_elem_of_In; [by eapply list_elem_of_lookup_2|done].
Qed.

Lemma bucket_insert_keeps k0 bucket id bucket' x :
  bucket_insert k0 bucket id = Ok bucket' → x ∈ bucket →
  x ∈ bucket'
  ∨ ∃ rest, bucket = x :: rest ∧ (id ∉ bucket) ∧ k0 ≤ Z.of_nat (length bucket).
Proof.
  unfold bucket_insert. destruct (decide (id ∈ bucket)) as [Hin|Hnin].
  - intros [= <-] Hx. left. apply elem_of_app.
    destruct (decide (x = id)) as [->|Hne].
    + right. by apply list_elem_of_singleton.
    + left. by apply list_remove_first_other.
  - destruct (Z.ltb_spec (Z.of_nat (length bucket)) k0) as [Hlt|Hge].
    + intros [= <-] Hx. left. apply elem_of_app. by left.
    + destruct bucket as [|head rest]; simpl; [done|]. intros [= <-] Hx.
      apply elem_of_cons in Hx as [->|Hx].
      * right. by exists rest.
      * left. apply elem_of_app. by left.
Qed.

Lemma add_node_all_nodes_sub self id self' x :
  add_node self id = Ok self' → x ∈ all_nodes self' → x ∈ all_nodes self ∨ x = id.
Proof.
  intros Hadd. destruct (decide (id = node_id self)) as [->|Hne].
  { rewrite add_node_self in Hadd. injection Hadd as <-. by left. }
  destruct (add_node_other self id self' Hne Hadd) as (bucket & bucket' & Hb & Hins & ->).
  cbv zeta in Hb, Hins. set (i := Z.to_nat (bucket_index (node_id self) id)) in *.
  rewrite !elem_of_all_nodes. simpl. intros (j & bj & Hj & Hx).
  destruct (decide (i = j)) as [<-|Hij].
  - rewrite list_lookup_insert_eq in Hj by (by eapply lookup_lt_Some).
    injection Hj as <-.
    destruct (bucket_insert_elem_of _ _ _ _ _ Hins Hx) as [Hold| ->]; [|by right].
    left. by exists i, bucket.
  - rewrite list_lookup_insert_ne in Hj by done. left. by exists j, bj.
Qed.

(** X5.  [add_node] never introduces an identifier other than the one
    inserted, and never drops a known identifier except the head of the
    selected bucket when that bucket is full and the identifier is new to
    it. *)
Theorem add_node_members (self : KademliaNode) (id : Z) (self' : KademliaNode) :
  add_node self id = Ok self' →
  (∀ x, x ∈ all_nodes self' → x ∈ all_nodes self ∨ x = id)
  ∧ (∀ x, x ∈ all_nodes self →
       x ∈ all_nodes self'
       ∨ ∃ rest,
           buckets self !! Z.to_nat (bucket_index (node_id self) id) = Some (x :: rest)
           ∧ (id ∉ x :: rest) ∧ k self ≤ Z.of_nat (length (x :: rest))).
Proof.
  intros Hadd. split; [intros x; by apply add_node_all_nodes_sub|].
  intros x. destruct (decide (id = node_id self)) as [->|Hne].
  { rewrite add_node_self in Hadd. injection Hadd as <-. by left. }
  destruct (add_node_other self id self' Hne Hadd) as (bucket & bucket' & Hb & Hins & ->).
  cbv zeta in Hb, Hins. set (i := Z.to_nat (bucket_index (node_id self) id)) in *.
  rewrite !elem_of_all_nodes. simpl. intros (j & bj & Hj & Hx).
  destruct (decide (i = j)) as [<-|Hij].
  - assert (bj = bucket) as -> by congruence.
    destruct (bucket_insert_keeps _ _ _ _ _ Hins Hx) as [Hkept|(rest & -> & Hnew & Hfull)].
    + left. exists i, bucket'. split; [|done].
      apply list_lookup_insert_eq. by eapply lookup_lt_Some.
    + right. by exists rest.
  - left. exists j, bj. split; [|done]. by rewrite list_lookup_insert_ne.
Qed.

Lemma concat_length_bound (bs : list (list Z)) (n : nat) :
  (∀ bucket, bucket ∈ bs → (length bucket ≤ n)%nat) →
  (length (concat bs) ≤ length bs * n)%nat.
Proof.
  induction bs as [|b bs IH]; intros Hall; simpl; [lia|].
  rewrite length_app.
  assert (length b ≤ n)%nat by (apply Hall; by left).
  assert (length (concat bs) ≤ length bs * n)%nat
    by (apply IH; intros b' Hb'; apply Hall; by right).
  lia.
Qed.

(** X6.  A routing table never holds more than [160 * k] identifiers: this
    bounds the number of known nodes in every state reached from a fresh
    node by [add_node] calls. *)
Theorem routing_table_size (id : option Z) (k0 rnd : Z) (self : KademliaNode) :
  0 ≤ k0 → add_node_steps (init id k0 rnd) self →
  Z.of_nat (length (all_nodes self)) ≤ 160 * k0.
Proof.
  intros Hk Hsteps.
  pose proof (add_node_steps_table_inv _ _ (init_table_inv id k0 rnd Hk) Hsteps)
    as [Hlen Hinv].
  destruct (add_node_steps_fields _ _ Hsteps) as [_ Hk0]. simpl in Hk0.
  pose proof (concat_length_bound (buckets self) (Z.to_nat k0)) as Hbound.
  unfold all_nodes. rewrite Hlen in Hbound.
  assert (length (concat (buckets self)) ≤ 160 * Z.to_nat k0)%nat; [|lia].
  apply Hbound. intros bucket Hb. apply list_elem_of_lookup in Hb as [i Hi].
  destruct (Hinv i bucket Hi) as (Hcap & _). lia.
Qed.

Lemma NoDup_concat_indexed (f : Z → Z) (bs : list (list Z)) (off : nat) :
  (∀ i bucket, bs !! i = Some bucket →
     NoDup bucket ∧ ∀ x, x ∈ bucket → f x = Z.of_nat (off + i)) →
  NoDup (concat bs).
Proof.
  revert off. induction bs as [|b bs IH]; intros off Hall; simpl; [constructor|].
  destruct (Hall 0%nat b eq_refl) as [Hb Hfb].
  apply NoDup_app. split; [done|]. split.
  - intros x Hx Hin. apply list_elem_of_In, in_concat in Hin as (b' & Hb' & Hxb').
    apply list_elem_of_In, list_elem_of_lookup in Hb' as [j Hj].
    destruct (Hall (S j) b' Hj) as [_ Hfb'].
    pose proof (Hfb x Hx). pose proof (Hfb' x ltac:(by apply list_elem_of_In)). lia.
  - apply (IH (S off)). intros i bucket Hi.
    destruct (Hall (S i) bucket Hi) as [Hnd Hf]. split; [done|].
    intros x Hx. rewrite (Hf x Hx). lia.
Qed.

Lemma table_inv_all_nodes self :
  table_inv self → NoDup (all_nodes self) ∧ node_id self ∉ all_nodes self.
Proof.
  intros [_ Hinv]. split.
  - apply (NoDup_concat_indexed (bucket_index (node_id self)) _ 0).
    intros i bucket Hb. destruct (Hinv i bucket Hb) as (_ & Hnd & Hm).
    split; [done|]. intros x Hx. by destruct (Hm x Hx).
  - rewrite elem_of_all_nodes. intros (i & bucket & Hb & Hx).
    destruct (Hinv i bucket Hb) as (_ & _ & Hm). by destruct (Hm _ Hx).
Qed.

(** X7.  In every state reached from a fresh node, the identifiers known
    are pairwise distinct and never include the owner's, so
    [find_closest_nodes] returns no identifier twice and never the owner's
    own. *)
Theorem known_nodes_distinct (id : option Z) (k0 rnd : Z) (self : KademliaNode)
    (target : Z) (count : option Z) :
  0 ≤ k0 → add_node_steps (init id k0 rnd) self →
  NoDup (all_nodes self) ∧ (node_id self ∉ all_nodes self)
  ∧ NoDup (find_closest_nodes self target count)
  ∧ (node_id self ∉ find_closest_nodes self target count).
Proof.
  intros Hk Hsteps.
  pose proof (add_node_steps_table_inv _ _ (init_table_inv id k0 rnd Hk) Hsteps) as Hinv.
  destruct (table_inv_all_nodes self Hinv) as [Hnd Hself].
  split; [done|]. split; [done|]. split.
  - assert (find_closest_nodes self target count
            `prefix_of` sort_by (distance target) (all_nodes self)) as [rest Hrest]
      by apply slice_to_prefix.
    assert (NoDup (sort_by (distance target) (all_nodes self))) as Hsorted
      by (by rewrite sort_by_Permutation).
    rewrite Hrest in Hsorted. by apply NoDup_app in Hsorted as [? _].
  - intros Hin. by apply find_closest_nodes_elem_of in Hin.
Qed.

(** X8.  Whatever count is requested, [find_closest_nodes] returns known
    identifiers in ascending distance to the target, and no known
    identifier it leaves out is closer to the target than one it returns. *)
Theorem find_closest_nodes_nearest (self : KademliaNode) (target : Z)
    (count : option Z) :
  let found := find_closest_nodes self target count in
  sorted_by_distance target found
  ∧ (∀ x, x ∈ found → x ∈ all_nodes self)
  ∧ (∀ x y, x ∈ found → y ∈ all_nodes self → y ∉ found →
       distance target x ≤ distance target y).
Proof.
  intros found. split; [apply find_closest_nodes_sorted|].
  split; [intros x; apply find_closest_nodes_elem_of|].
  intros x y Hx Hy Hny.
  assert (found `prefix_of` sort_by (distance target) (all_nodes self)) as [rest Hrest]
    by apply slice_to_prefix.
  pose proof (sort_by_sorted (distance target) (all_nodes self)) as Hsorted.
  rewrite Hrest in Hsorted.
  apply (StronglySorted_app_1_elem_of _ _ _ x y Hsorted Hx).
  rewrite <- (sort_by_Permutation (distance target)) in Hy.
  rewrite Hrest in Hy. apply elem_of_app in Hy as [Hy|Hy]; done.
Qed.

(** X9.  A negative count [c] is a slice bound counted from the end: the
    call returns the members in ascending distance without the [-c]
    farthest, and the empty list when there are no more than [-c]. *)
Theorem find_closest_nodes_negative_count (self : KademliaNode) (target c : Z) :
  c < 0 →
  let found := find_closest_nodes self target (Some c) in
  let nearest := sort_by (distance target) (all_nodes self) in
  let total := Z.of_nat (length (all_nodes self)) in
  (∃ farthest, nearest = found ++ farthest
               ∧ Z.of_nat (length farthest) = Z.min (- c) total)
  ∧ Z.of_nat (length found) = Z.max 0 (total + c).
Proof.
  intros Hc found nearest total.
  assert (length nearest = length (all_nodes self)) as Hlen
    by (unfold nearest; by rewrite sort_by_Permutation).
  assert (found = take (Z.to_nat (total + c)) nearest) as ->.
  { unfold found. rewrite find_closest_nodes_count by lia. unfold slice_to.
    destruct (Z.leb_spec 0 c); [lia|]. fold nearest. rewrite Hlen. done. }
  split.
  - exists (drop (Z.to_nat (total + c)) nearest). split; [by rewrite take_drop|].
    rewrite length_drop, Hlen. unfold total. lia.
  - rewrite length_take, Hlen. unfold total. lia.
Qed.

(** X10.  Insert, then ask: with non-negative identifiers, after a
    successful [add_node] of another identifier the single closest known
    node to that identifier is the identifier itself. *)
Theorem add_node_then_closest (self : KademliaNode) (id : Z) (self' : KademliaNode) :
  (∀ x, x ∈ all_nodes self → 0 ≤ x) → 0 ≤ id → id ≠ node_id self →
  add_node self id = Ok self' →
  find_closest_nodes self' id (Some 1) = [id].
Proof.
  intros Hpos Hid Hne Hadd.
  assert (id ∈ all_nodes self') as Hin.
  { destruct (add_node_other self id self' Hne Hadd) as (bucket & bucket' & Hb & Hins & ->).
    cbv zeta in Hb, Hins. apply elem_of_all_nodes.
    exists (Z.to_nat (bucket_index (node_id self) id)), bucket'. simpl. split.
    - apply list_lookup_insert_eq. by eapply lookup_lt_Some.
    - revert Hins. unfold bucket_insert. destruct (decide (id ∈ bucket)).
      + intros [= <-]. apply elem_of_app. right. by apply list_elem_of_singleton.
      + destruct (_ <? _); [intros [= <-]|destruct bucket; simpl; [done|intros [= <-]]];
          apply elem_of_app; right; by apply list_elem_of_singleton. }
  assert (∀ x, x ∈ all_nodes self' → 0 ≤ x) as Hpos'.
  { intros x Hx. destruct (add_node_all_nodes_sub _ _ _ _ Hadd Hx) as [?| ->]; auto. }
  rewrite find_closest_nodes_count by lia. rewrite slice_to_nonneg by lia.
  pose proof (sort_by_sorted (distance id) (all_nodes self')) as Hsorted.
  pose proof (sort_by_Permutation (distance id) (all_nodes self')) as Hperm.
  destruct (sort_by (distance id) (all_nodes self')) as [|head rest] eqn:Hs.
  { rewrite <- Hperm in Hin. by apply elem_of_nil in Hin. }
  change (Z.to_nat 1) with 1%nat. simpl. f_equal.
  assert (0 ≤ head) as Hhead by (apply Hpos'; rewrite <- Hperm; by left).
  assert (distance id head ≤ distance id id) as Hle.
  { rewrite <- Hperm in Hin. apply elem_of_cons in Hin as [->|Hin]; [done|].
    apply StronglySorted_inv in Hsorted as [_ Hall].
    rewrite Forall_forall in Hall. by apply Hall. }
  assert (distance id id = 0) as H0 by (by apply distance_zero_iff).
  pose proof (distance_nonneg id head Hid Hhead).
  symmetry. apply distance_zero_iff. lia.
Qed.

(** * Further properties of storage and lookup *)

Lemma add_node_store sha1 self key value id :
  add_node (store sha1 self key value) id =
  match add_node self id with
  | Ok self' => Ok (store sha1 self' key value)
  | Raise e => Raise e
  end.
Proof.
  unfold add_node. simpl. destruct (id =? node_id self); [done|].
  destruct (list_index _ _) as [i|]; [|done].
  destruct (buckets self !! i) as [bucket|]; [|done].
  by destruct (bucket_insert (k self) bucket id).
Qed.

(** X11.  [store] touches one storage entry and nothing else: another key
    reads as before unless its hash is the stored key's, in which case it
    reads the stored value; the routing table is as before, so
    [find_closest_nodes] is unchanged; and [store] commutes with
    [add_node], which in turn never changes what [find_value] returns. *)
Theorem store_frame (sha1 : string → Z) (self : KademliaNode)
    (key value other : string) :
  find_value sha1 (store sha1 self key value) other =
    (if decide (sha1 other = sha1 key) then Some value else find_value sha1 self other)
  ∧ (∀ target count,
       find_closest_nodes (store sha1 self key value) target count =
       find_closest_nodes self target count)
  ∧ (∀ id, add_node (store sha1 self key value) id =
           match add_node self id with
           | Ok self' => Ok (store sha1 self' key value)
           | Raise e => Raise e
           end)
  ∧ (∀ id self', add_node self id = Ok self' →
       find_value sha1 self' other = find_value sha1 self other).
Proof.
  split; [|split; [done|split; [intros id; apply add_node_store|]]].
  - unfold find_value, store. simpl. case_decide as Heq.
    + rewrite Heq. apply lookup_insert_eq.
    + by apply lookup_insert_ne.
  - intros id self' Hadd. destruct (decide (id = node_id self)) as [->|Hne].
    + rewrite add_node_self in Hadd. by injection Hadd as <-.
    + by destruct (add_node_other self id self' Hne Hadd) as (? & ? & _ & _ & ->).
Qed.

Lemma truthy_Some v s : truthy v = true → v = Some s → s ≠ EmptyString.
Proof. intros Ht -> ->. done. Qed.

Lemma truthy_true v : truthy v = true ↔ ∃ s, v = Some s ∧ s ≠ EmptyString.
Proof.
  split.
  - destruct v as [s|]; [|done]. intros Ht. exists s. split; [done|].
    by eapply truthy_Some.
  - intros (s & -> & Hs). by apply truthy_nonempty.
Qed.

Lemma lookup_candidates_sound sha1 nodes key closest v :
  lookup_candidates sha1 nodes key closest = Some v →
  v ≠ EmptyString
  ∧ ∃ c holder, c ∈ closest ∧ nodes !! c = Some holder
                ∧ find_value sha1 holder key = Some v.
Proof.
  induction closest as [|c closest IH]; simpl; [done|].
  destruct (nodes !! c) as [n|] eqn:Hc.
  - destruct (truthy (find_value sha1 n key)) eqn:Ht.
    + intros Hv. split; [by eapply truthy_Some|].
      exists c, n. split; [by left|done].
    + intros Hv. destruct (IH Hv) as (Hne & c' & holder & Hin & Hreg & Hval).
      split; [done|]. exists c', holder. split; [by right|done].
  - intros Hv. destruct (IH Hv) as (Hne & c' & holder & Hin & Hreg & Hval).
    split; [done|]. exists c', holder. split; [by right|done].
Qed.

Lemma lookup_candidates_none_inv sha1 nodes key closest c n :
  lookup_candidates sha1 nodes key closest = None →
  c ∈ closest → nodes !! c = Some n → truthy (find_value sha1 n key) = false.
Proof.
  induction closest as [|c' closest IH]; simpl; [by intros _ ?%elem_of_nil|].
  intros Hnone Hin Hn. apply elem_of_cons in Hin as [->|Hin].
  - rewrite Hn in Hnone. destruct (truthy (find_value sha1 n key)) eqn:Ht; [|done].
    apply truthy_true in Ht as (s & Hs & _). by rewrite Hs in Hnone.
  - apply IH; [|done|done]. destruct (nodes !! c') as [n'|]; [|done].
    destruct (truthy (find_value sha1 n' key)) eqn:Ht; [|done].
    apply truthy_true in Ht as (s & Hs & _). by rewrite Hs in Hnone.
Qed.

(** X12.  [lookup] invents nothing: a value it returns is not the empty
    string, the origin is registered, and the value is what the origin
    holds for the key or what a registered node among the origin's closest
    candidates holds for it. *)
Theorem lookup_sound (sha1 : string → Z) (nodes : gmap Z KademliaNode) (id : Z)
    (key v : string) :
  lookup sha1 nodes id key = Some v →
  v ≠ EmptyString
  ∧ ∃ origin, nodes !! id = Some origin
      ∧ (find_value sha1 origin key = Some v
         ∨ ∃ c holder,
             c ∈ find_closest_nodes origin (sha1 key) None
             ∧ nodes !! c = Some holder ∧ find_value sha1 holder key = Some v).
Proof.
  unfold lookup. destruct (nodes !! id) as [origin|]; [|done]. cbv zeta.
  destruct (truthy (find_value sha1 origin key)) eqn:Ht.
  - intros Hv. split; [by eapply truthy_Some|]. exists origin. split; [done|by left].
  - intros Hv. destruct (lookup_candidates_sound _ _ _ _ _ Hv) as (Hne & c & holder & H).
    split; [done|]. exists origin. split; [done|]. right. by exists c, holder.
Qed.

(** X13.  [lookup] returns [None] exactly when the origin is not
    registered, or neither the origin nor any registered node among its
    closest candidates holds a non-empty value for the key. *)
Theorem lookup_none_iff (sha1 : string → Z) (nodes : gmap Z KademliaNode) (id : Z)
    (key : string) :
  lookup sha1 nodes id key = None ↔
  nodes !! id = None
  ∨ ∃ origin, nodes !! id = Some origin
      ∧ (∀ v, find_value sha1 origin key = Some v → v = EmptyString)
      ∧ (∀ c holder v,
           c ∈ find_closest_nodes origin (sha1 key) None →
           nodes !! c = Some holder → find_value sha1 holder key = Some v →
           v = EmptyString).
Proof.
  assert (∀ n, truthy (find_value sha1 n key) = false ↔
               ∀ v, find_value sha1 n key = Some v → v = EmptyString) as Hfalsy.
  { intros n. rewrite truthy_false. split.
    - intros [Hv|Hv] v; rewrite Hv; [by intros [= <-]|done].
    - intros Hall. destruct (find_value sha1 n key) as [v|]; [left|by right].
      by rewrite (Hall v eq_refl). }
  split.
  - intros Hnone. destruct (nodes !! id) as [origin|] eqn:Hid; [right|by left].
    exists origin. split; [done|].
    assert (truthy (find_value sha1 origin key) = false) as Hlocal.
    { unfold lookup in Hnone. rewrite Hid in Hnone. cbv zeta in Hnone.
      destruct (truthy (find_value sha1 origin key)) eqn:Ht; [|done].
      apply truthy_true in Ht as (s & Hs & _). by rewrite Hs in Hnone. }
    split; [by apply Hfalsy|].
    rewrite (lookup_remote sha1 nodes id key origin Hid Hlocal) in Hnone.
    intros c holder v Hc Hreg. apply Hfalsy.
    by eapply lookup_candidates_none_inv.
  - intros [Hid|(origin & Hid & Hlocal & Hcands)]; [by apply lookup_unregistered|].
    rewrite (lookup_remote sha1 nodes id key origin Hid) by (by apply Hfalsy).
    apply lookup_candidates_none. intros c n Hc Hn. apply Hfalsy. eauto.
Qed.

(** X14.  Order of the answers: a non-empty value held by the origin is
    returned whatever the candidates hold; otherwise the value returned is
    that of the first candidate, in ascending distance to the key's hash,
    that is registered and holds a non-empty value. *)
Theorem lookup_nearest_holder (sha1 : string → Z) (nodes : gmap Z KademliaNode)
    (id : Z) (key : string) (origin : KademliaNode) :
  nodes !! id = Some origin →
  (∀ v, find_value sha1 origin key = Some v → v ≠ EmptyString →
     lookup sha1 nodes id key = Some v)
  ∧ (∀ nearer c farther holder v,
       (∀ s, find_value sha1 origin key = Some s → s = EmptyString) →
       find_closest_nodes origin (sha1 key) None = nearer ++ c :: farther →
       (∀ c' n s, c' ∈ nearer → nodes !! c' = Some n →
          find_value sha1 n key = Some s → s = EmptyString) →
       nodes !! c = Some holder → find_value sha1 holder key = Some v →
       v ≠ EmptyString →
       lookup sha1 nodes id key = Some v).
Proof.
  intros Hid. split; [intros v Hv Hne; by eapply lookup_local|].
  assert (∀ n, (∀ s, find_value sha1 n key = Some s → s = EmptyString) →
               truthy (find_value sha1 n key) = false) as Hfalsy.
  { intros n Hall. apply truthy_false.
    destruct (find_value sha1 n key) as [s|]; [left|by right].
    by rewrite (Hall s eq_refl). }
  intros nearer c farther holder v Hlocal Hclosest Hnearer Hc Hv Hne.
  rewrite (lookup_remote sha1 nodes id key origin Hid) by (by apply Hfalsy).
  rewrite Hclosest. apply (lookup_candidates_first sha1 nodes key nearer c holder v);
    [|done|done|done].
  intros c' n' Hin Hn'. apply Hfalsy. intros s. by apply (Hnearer c' n' s).
Qed.

Lemma lookup_candidates_ext sha1 nodes nodes' key closest :
  (∀ c, c ∈ closest → nodes' !! c = nodes !! c) →
  lookup_candidates sha1 nodes' key closest = lookup_candidates sha1 nodes key closest.
Proof.
  induction closest as [|c closest IH]; intros Hagree; simpl; [done|].
  rewrite (Hagree c) by (by left).
  rewrite IH by (intros c' Hc'; apply Hagree; by right). done.
Qed.

(** X15.  [lookup] reads the registry only at the origin and at the
    origin's closest candidates: two registries that agree there give the
    same result, so registering, replacing or removing any other node does
    not change it. *)
Theorem lookup_depends_on_consulted (sha1 : string → Z)
    (nodes nodes' : gmap Z KademliaNode) (id : Z) (key : string) :
  nodes' !! id = nodes !! id →
  (∀ origin c, nodes !! id = Some origin →
     c ∈ find_closest_nodes origin (sha1 key) None → nodes' !! c = nodes !! c) →
  lookup sha1 nodes' id key = lookup sha1 nodes id key.
Proof.
  intros Hid Hcands. unfold lookup. rewrite Hid.
  destruct (nodes !! id) as [origin|] eqn:Horigin; [|done]. cbv zeta.
  destruct (truthy (find_value sha1 origin key)); [done|].
  apply lookup_candidates_ext. intros c Hc. by apply (Hcands origin).
Qed.

(** * Programs over node objects *)

Lemma add_node_fields self id self' :
  add_node self id = Ok self' →
  node_id self' = node_id self ∧ k self' = k self ∧ storage self' = storage self
  ∧ length (buckets self') = length (buckets self).
Proof.
  intros Hadd. destruct (decide (id = node_id self)) as [->|Hne].
  - rewrite add_node_self in Hadd. by injection Hadd as <-.
  - destruct (add_node_other self id self' Hne Hadd) as (? & ? & _ & _ & ->).
    simpl. by rewrite length_insert.
Qed.

Lemma add_node_ready self id self' : ready self → add_node self id = Ok self' → ready self'.
Proof.
  intros (Hlen & Hk & Hid) Hadd. unfold ready.
  destruct (add_node_fields _ _ _ Hadd) as (-> & -> & _ & ->). done.
Qed.

Lemma add_node_learns self id self' :
  id ≠ node_id self → add_node self id = Ok self' → id ∈ all_nodes self'.
Proof.
  intros Hne Hadd.
  destruct (add_node_other self id self' Hne Hadd) as (bucket & bucket' & Hb & Hins & ->).
  cbv zeta in Hb, Hins. apply elem_of_all_nodes.
  exists (Z.to_nat (bucket_index (node_id self) id)), bucket'. simpl. split.
  - apply list_lookup_insert_eq. by eapply lookup_lt_Some.
  - revert Hins. unfold bucket_insert. destruct (decide (id ∈ bucket)).
    + intros [= <-]. apply elem_of_app. right. by apply list_elem_of_singleton.
    + destruct (_ <? _); [intros [= <-]|destruct bucket; simpl; [done|intros [= <-]]];
        apply elem_of_app; right; by apply list_elem_of_singleton.
Qed.

Lemma call_add_node_run w node self id self' :
  objects w !! node = Some self → add_node self id = Ok self' →
  call_add_node node id w =
  Returns tt {| objects := <[node := self']> (objects w); dht_nodes := dht_nodes w |}.
Proof.
  intros Hnode Hadd. unfold call_add_node, mbind, prog_bind, get_node.
  by rewrite Hnode, Hadd.
Qed.

Lemma bootstrap_unregistered w new bid :
  dht_nodes w !! bid = None → bootstrap new bid w = Returns tt w.
Proof. intros Hreg. unfold bootstrap, mbind, prog_bind, get_registered. by rewrite Hreg. Qed.

Lemma bootstrap_run w new bid peer self self1 p p' :
  dht_nodes w !! bid = Some peer →
  objects w !! new = Some self → add_node self bid = Ok self1 →
  <[new := self1]> (objects w) !! peer = Some p →
  add_node p (node_id self1) = Ok p' →
  bootstrap new bid w =
  Returns tt {| objects := <[peer := p']> (<[new := self1]> (objects w));
                dht_nodes := dht_nodes w |}.
Proof.
  intros Hreg Hnew Hadd Hpeer Hadd'.
  unfold bootstrap. unfold mbind at 1. unfold prog_bind, get_registered. rewrite Hreg.
  unfold mbind at 1. unfold prog_bind.
  rewrite (call_add_node_run w new self bid self1 Hnew Hadd).
  unfold mbind at 1. unfold prog_bind, get_node. cbn [objects].
  rewrite list_lookup_insert_eq by (by eapply lookup_lt_Some).
  by rewrite (call_add_node_run
                {| objects := <[new:=self1]> (objects w); dht_nodes := dht_nodes w |}
                peer p (node_id self1) p' Hpeer Hadd').
Qed.

Lemma bootstrap_ready w new bid peer self p :
  dht_nodes w !! bid = Some peer →
  objects w !! new = Some self → objects w !! peer = Some p →
  ready self → ready p → is_id 160 bid →
  ∃ self1 p',
    add_node self bid = Ok self1
    ∧ (if decide (peer = new) then p' = self1
       else add_node p (node_id self) = Ok p')
    ∧ bootstrap new bid w =
      Returns tt {| objects := <[peer := p']> (<[new := self1]> (objects w));
                    dht_nodes := dht_nodes w |}.
Proof.
  intros Hreg Hnew Hpeer (Hlen & Hk & Hid) (Hlen' & Hk' & Hid') Hbid.
  destruct (add_node_total self bid Hlen Hk Hid Hbid) as [self1 Hadd].
  destruct (add_node_fields _ _ _ Hadd) as (Hid1 & _).
  exists self1. destruct (decide (peer = new)) as [->|Hne].
  - exists self1. split; [done|]. split; [done|].
    apply (bootstrap_run w new bid new self self1 self1 self1); try done.
    + apply list_lookup_insert_eq. by eapply lookup_lt_Some.
    + apply add_node_self.
  - destruct (add_node_total p (node_id self) Hlen' Hk' Hid' Hid) as [p' Hadd'].
    exists p'. split; [done|]. split; [done|].
    apply (bootstrap_run w new bid peer self self1 p p'); try done.
    + by rewrite list_lookup_insert_ne.
    + by rewrite Hid1.
Qed.

Lemma concat_replicate_nil {A} (n : nat) : concat (replicate n (@nil A)) = [].
Proof. induction n as [|n IH]; simpl; done. Qed.

Lemma concat_insert_replicate {A} (n i : nat) (b : list A) :
  (i < n)%nat → concat (<[i := b]> (replicate n [])) = b.
Proof.
  revert i. induction n as [|n IH]; intros [|i] Hi; simpl; try lia.
  - by rewrite concat_replicate_nil, app_nil_r.
  - apply IH. lia.
Qed.

Lemma add_node_init_all_nodes id k0 rnd x self' :
  0 < k0 → add_node (init id k0 rnd) x = Ok self' → x ≠ node_id (init id k0 rnd) →
  all_nodes self' = [x].
Proof.
  intros Hk Hadd Hne.
  destruct (add_node_other _ x self' Hne Hadd) as (bucket & bucket' & Hb & Hins & ->).
  cbv zeta in Hb, Hins. set (i := Z.to_nat (bucket_index _ x)) in *.
  change (replicate 160 [] !! i = Some bucket) in Hb.
  apply lookup_replicate in Hb as [-> Hi].
  rewrite bucket_insert_room in Hins; [|apply not_elem_of_nil|simpl; lia].
  injection Hins as <-. unfold all_nodes, set_buckets. cbn [buckets].
  change (buckets (init id k0 rnd)) with (replicate 160 (@nil Z)).
  by apply concat_insert_replicate.
Qed.

Lemma find_closest_nodes_single self target x :
  all_nodes self = [x] → 0 < k self →
  find_closest_nodes self target None = [x].
Proof.
  intros Hall Hk. rewrite find_closest_nodes_default, Hall. simpl.
  rewrite slice_to_nonneg by lia.
  replace (Z.to_nat (k self)) with (S (Z.to_nat (k self - 1))) by lia.
  simpl. by rewrite take_nil.
Qed.

Lemma lookup_no_values sha1 (nodes : gmap Z KademliaNode) id key :
  (∀ id' n, nodes !! id' = Some n → storage n = ∅) →
  lookup sha1 nodes id key = None.
Proof.
  intros Hempty.
  assert (∀ id' n, nodes !! id' = Some n → truthy (find_value sha1 n key) = false) as Hf.
  { intros id' n Hn. unfold find_value. by rewrite (Hempty id' n Hn), lookup_empty. }
  destruct (nodes !! id) as [origin|] eqn:Hid; [|by apply lookup_unregistered].
  rewrite (lookup_remote sha1 nodes id key origin Hid) by eauto.
  apply lookup_candidates_none. eauto.
Qed.

Lemma script_registry_lookup r1 r2 r3 id node :
  script_registry r1 r2 r3 !! id = Some node →
  (id = r3 ∧ node = 2%nat) ∨ (id = r2 ∧ id ≠ r3 ∧ node = 1%nat)
  ∨ (id = r1 ∧ id ≠ r2 ∧ id ≠ r3 ∧ node = 0%nat).
Proof.
  unfold script_registry. rewrite !lookup_insert. repeat case_decide; subst.
  - intros [= <-]. by left.
  - intros [= <-]. right. by left.
  - intros [= <-]. right. by right.
  - by rewrite lookup_empty.
Qed.

Lemma script_registry_r1 r1 r2 r3 :
  ∃ peer, script_registry r1 r2 r3 !! r1 = Some peer ∧ (peer ≤ 2)%nat
          ∧ (r1 ≠ r2 → r1 ≠ r3 → peer = 0%nat).
Proof.
  unfold script_registry. rewrite !lookup_insert. repeat case_decide; subst.
  - exists 2%nat. split; [done|]. split; [lia|]. intros _ ?. done.
  - exists 1%nat. split; [done|]. split; [lia|]. intros ? _. done.
  - exists 0%nat. split; [done|]. split; [lia|]. done.
  - done.
Qed.

Lemma add_node_keeps_state self id self' r :
  ready self ∧ node_id self = r ∧ storage self = ∅ → add_node self id = Ok self' →
  ready self' ∧ node_id self' = r ∧ storage self' = ∅.
Proof.
  intros (Hready & Hid & Hst) Hadd.
  destruct (add_node_fields _ _ _ Hadd) as (Hid' & _ & Hst' & _).
  split; [by eapply add_node_ready|]. split; congruence.
Qed.

Lemma run_bind_returns {A B} (m : prog A) (f : A → prog B) w a w' :
  m w = Returns a w' → (m ≫= f) w = f a w'.
Proof. intros Hm. unfold mbind, prog_bind. by rewrite Hm. Qed.

Lemma get_node_run w node self :
  objects w !! node = Some self → get_node node w = Returns self w.
Proof. intros Hnode. unfold get_node. by rewrite Hnode. Qed.

Lemma bootstrap_script r1 r2 r3 w a b c new :
  is_id 160 r1 → script_shape r1 r2 r3 w a b c → new = 1%nat ∨ new = 2%nat →
  ∃ w' a' b' c',
    bootstrap new r1 w = Returns tt w' ∧ script_shape r1 r2 r3 w' a' b' c'
    ∧ (r1 ≠ r2 → r1 ≠ r3 →
       (new = 1%nat → add_node b r1 = Ok b' ∧ c' = c)
       ∧ (new = 2%nat → add_node c r1 = Ok c' ∧ b' = b)).
Proof.
  intros Hr1 (Hobjs & Hreg & Ha & Hb & Hc) Hnew.
  destruct (script_registry_r1 r1 r2 r3) as (peer & Hpeer & Hle & Hzero).
  rewrite <- Hreg in Hpeer.
  assert (∃ self, objects w !! new = Some self
                  ∧ (ready self ∧ node_id self = (if decide (new = 1%nat) then r2 else r3)
                     ∧ storage self = ∅)
                  ∧ self = (if decide (new = 1%nat) then b else c))
    as (self & Hself & Hstate & Hwhich).
  { rewrite Hobjs. destruct Hnew as [-> | ->]; simpl; eauto. }
  assert (∃ p r, objects w !! peer = Some p ∧ (ready p ∧ node_id p = r ∧ storage p = ∅))
    as (p & rp & Hp & Hpstate).
  { rewrite Hobjs. destruct peer as [|[|[|?]]]; simpl; [eauto..|lia]. }
  destruct (bootstrap_ready w new r1 peer self p Hpeer Hself Hp
              (proj1 Hstate) (proj1 Hpstate) Hr1) as (self1 & p' & Hadd & Hadd' & Hrun).
  pose proof (add_node_keeps_state _ _ _ _ Hstate Hadd) as Hstate1.
  assert (ready p' ∧ node_id p' = (if decide (peer = new) then node_id self else rp)
          ∧ storage p' = ∅) as Hpstate'.
  { destruct (decide (peer = new)) as [->|Hne].
    - subst p'. destruct Hstate1 as (? & ? & ?), Hstate as (? & ? & ?).
      split; [done|]. split; congruence.
    - by eapply add_node_keeps_state. }
  rewrite Hrun. rewrite Hobjs in *. clear Hrun.
  destruct Hnew as [-> | ->]; destruct peer as [|[|[|?]]]; try lia;
    simpl in *; simplify_eq/=; repeat case_decide; try done; try lia;
    eexists _, _, _, _; (split; [reflexivity|]); (split;
      [unfold script_shape; simpl; destruct_and?;
       split; [done|]; split; [done|]; (split; [|split]);
       (split; [done|split; congruence])
      |intros Hn2 Hn3; specialize (Hzero Hn2 Hn3); try discriminate Hzero;
       split; intros Hnew; first [discriminate Hnew|by split]]).
Qed.

Lemma init_ready k0 r : 0 < k0 → is_id 160 r → ready (init None k0 r).
Proof. intros Hk Hr. split; [done|]. by split. Qed.

Lemma registered_lookup w id :
  registered w !! id = dht_nodes w !! id ≫= λ node, objects w !! node.
Proof. unfold registered. apply lookup_omap. Qed.

(** X17.  The example script, for any three 160-bit identifiers drawn for
    its nodes and any hash function: it runs to the end without an
    exception, and the result it prints is ["world"] exactly when the first
    node's identifier differs from the other two; otherwise the first node
    has been replaced in the registry and the result is [None]. *)
Theorem main_result (sha1 : string → Z) (r1 r2 r3 : Z) :
  is_id 160 r1 → is_id 160 r2 → is_id 160 r3 →
  ∃ w, main sha1 r1 r2 r3 empty_world =
       Returns (if decide (r1 ≠ r2 ∧ r1 ≠ r3) then Some "world"%string else None) w.
Proof.
  intros Hr1 Hr2 Hr3.
  set (n1 := init None 20 r1). set (n2 := init None 20 r2). set (n3 := init None 20 r3).
  set (w3 := {| objects := [n1; n2; n3]; dht_nodes := script_registry r1 r2 r3 |}).
  assert (script_shape r1 r2 r3 w3 n1 n2 n3) as Hshape3.
  { split; [done|]. split; [done|].
    split; [|split]; (split; [apply init_ready; [lia|done]|done]). }
  change (main sha1 r1 r2 r3 empty_world) with
    ((self1 ← get_node 0%nat;
      bootstrap 1%nat (node_id self1);;
      self1 ← get_node 0%nat;
      bootstrap 2%nat (node_id self1);;
      call_store sha1 0%nat "hello" "world";;
      self2 ← get_node 1%nat;
      KademliaDHT_lookup sha1 (node_id self2) "hello") w3).
  destruct (bootstrap_script r1 r2 r3 w3 n1 n2 n3 1%nat Hr1 Hshape3 ltac:(by left))
    as (w4 & a4 & b4 & c4 & Hrun4 & Hshape4 & Hcase4).
  destruct (bootstrap_script r1 r2 r3 w4 a4 b4 c4 2%nat Hr1 Hshape4 ltac:(by right))
    as (w5 & a5 & b5 & c5 & Hrun5 & Hshape5 & Hcase5).
  destruct Hshape4 as (Hobjs4 & _ & (_ & Hid4 & _) & _).
  destruct Hshape5 as (Hobjs5 & Hreg5 & (Ha5 & Hida5 & Hsta5) & (Hb5 & Hidb5 & Hstb5)
                       & (Hc5 & Hidc5 & Hstc5)).
  erewrite run_bind_returns by (by apply get_node_run).
  change (node_id n1) with r1.
  erewrite run_bind_returns by exact Hrun4.
  erewrite run_bind_returns by (apply get_node_run; by rewrite Hobjs4).
  rewrite Hid4.
  erewrite run_bind_returns by exact Hrun5.
  set (a6 := store sha1 a5 "hello" "world").
  set (w6 := {| objects := [a6; b5; c5]; dht_nodes := dht_nodes w5 |}).
  assert (call_store sha1 0%nat "hello" "world" w5 = Returns tt w6) as Hrun6.
  { unfold call_store. erewrite run_bind_returns by (apply get_node_run; by rewrite Hobjs5).
    unfold set_node. by rewrite Hobjs5. }
  erewrite run_bind_returns by exact Hrun6.
  erewrite run_bind_returns by (by apply get_node_run).
  rewrite Hidb5. unfold KademliaDHT_lookup. exists w6. f_equal.
  assert (∀ id, registered w6 !! id =
                script_registry r1 r2 r3 !! id ≫= λ node, [a6; b5; c5] !! node) as Hview.
  { intros id. rewrite registered_lookup. simpl. by rewrite Hreg5. }
  case_decide as Hdistinct.
  - destruct Hdistinct as [Hn2 Hn3].
    destruct (Hcase4 Hn2 Hn3) as [Hfirst _]. destruct (Hfirst eq_refl) as [Hb4 ->].
    destruct (Hcase5 Hn2 Hn3) as [_ Hsecond]. destruct (Hsecond eq_refl) as [Hc5' ->].
    assert (∃ origin, registered w6 !! r2 = Some origin ∧ all_nodes origin = [r1]
                      ∧ k origin = 20 ∧ storage origin = ∅)
      as (origin & Horigin & Hall & Hk & Hst).
    { rewrite Hview. unfold script_registry. rewrite lookup_insert.
      case_decide as H32.
      - simpl. exists c5. split; [done|].
        split; [apply (add_node_init_all_nodes None 20 r3 r1 c5 ltac:(lia) Hc5' Hn3)|].
        destruct (add_node_fields _ _ _ Hc5') as (_ & -> & _). done.
      - rewrite lookup_insert_eq. simpl. exists b4. split; [done|].
        split; [apply (add_node_init_all_nodes None 20 r2 r1 b4 ltac:(lia) Hb4 Hn2)|].
        destruct (add_node_fields _ _ _ Hb4) as (_ & -> & _). done. }
    assert (registered w6 !! r1 = Some a6) as Hholder.
    { rewrite Hview. unfold script_registry.
      rewrite lookup_insert_ne, lookup_insert_ne, lookup_insert_eq by done. done. }
    rewrite (lookup_remote sha1 _ r2 "hello" origin Horigin)
      by (unfold find_value; by rewrite Hst, lookup_empty).
    rewrite (find_closest_nodes_single origin _ r1 Hall) by lia.
    simpl. rewrite Hholder. unfold a6. by rewrite find_value_store.
  - apply lookup_no_values. intros id n. rewrite Hview. intros Hn.
    destruct (script_registry r1 r2 r3 !! id) as [node|] eqn:Hnode; [|done].
    simpl in Hn.
    destruct (script_registry_lookup _ _ _ _ _ Hnode)
      as [[_ ->]|[(_ & _ & ->)|(-> & ? & ? & _)]].
    + simpl in Hn. by injection Hn as <-.
    + simpl in Hn. by injection Hn as <-.
    + exfalso. by apply Hdistinct.
Qed.

(** X16.  [bootstrap] against an identifier that is not registered changes
    nothing.  Against a registered one, with nodes laid out by [__init__]
    and 160-bit identifiers, it returns, leaves the registry and every other
    object as they were, and introduces the two nodes to each other: the new
    node knows the bootstrap identifier and the peer knows the new node's,
    unless the identifier to learn is the learner's own. *)
Theorem bootstrap_introduces (w : world) (new : nat) (bid : Z) :
  (dht_nodes w !! bid = None → bootstrap new bid w = Returns tt w)
  ∧ (∀ peer self p,
       dht_nodes w !! bid = Some peer →
       objects w !! new = Some self → objects w !! peer = Some p →
       ready self → ready p → is_id 160 bid →
       ∃ w', bootstrap new bid w = Returns tt w'
         ∧ dht_nodes w' = dht_nodes w
         ∧ (∀ r, r ≠ new → r ≠ peer → objects w' !! r = objects w !! r)
         ∧ (∃ self', objects w' !! new = Some self'
              ∧ node_id self' = node_id self ∧ storage self' = storage self
              ∧ (bid ≠ node_id self → bid ∈ all_nodes self'))
         ∧ (∃ p', objects w' !! peer = Some p'
              ∧ node_id p' = node_id p ∧ storage p' = storage p
              ∧ (node_id self ≠ node_id p → node_id self ∈ all_nodes p'))).
Proof.
  split; [apply bootstrap_unregistered|].
  intros peer self p Hreg Hnew Hpeer Hself Hp Hbid.
  destruct (bootstrap_ready w new bid peer self p Hreg Hnew Hpeer Hself Hp Hbid)
    as (self1 & p' & Hadd & Hadd' & Hrun).
  destruct (add_node_fields _ _ _ Hadd) as (Hid1 & _ & Hst1 & _).
  pose proof (lookup_lt_Some _ _ _ Hnew) as Hlt.
  pose proof (lookup_lt_Some _ _ _ Hpeer) as Hlt'.
  eexists. split; [exact Hrun|]. cbn [objects dht_nodes].
  split; [done|]. split.
  { intros r Hr Hr'. by rewrite !list_lookup_insert_ne. }
  destruct (decide (peer = new)) as [->|Hne].
  - subst p'. assert (p = self) as -> by congruence.
    rewrite list_lookup_insert_eq by (by rewrite length_insert).
    split; exists self1; (split; [done|]); (split; [done|]); (split; [done|]).
    + intros Hb. by eapply add_node_learns.
    + done.
  - destruct (add_node_fields _ _ _ Hadd') as (Hidp & _ & Hstp & _).
    split.
    + exists self1. rewrite list_lookup_insert_ne by done.
      rewrite list_lookup_insert_eq by done. split; [done|]. split; [done|].
      split; [done|]. intros Hb. by eapply add_node_learns.
    + exists p'. rewrite list_lookup_insert_eq by (by rewrite length_insert).
      split; [done|]. split; [done|]. split; [done|].
      intros Hb. eapply add_node_learns; [|exact Hadd']. done.
Qed.

(** X18.  A value stored through a reference to a node is seen by a lookup
    that reaches the node through the registry: when the node is registered
    under [id], storing a non-empty value and then looking the key up from
    [id] returns that value. *)
Theorem store_then_lookup (sha1 : string → Z) (w : world) (node : nat)
    (self : KademliaNode) (id : Z) (key value : string) :
  objects w !! node = Some self → dht_nodes w !! id = Some node →
  value ≠ EmptyString →
  (call_store sha1 node key value;; KademliaDHT_lookup sha1 id key) w =
  Returns (Some value)
    {| objects := <[node := store sha1 self key value]> (objects w);
       dht_nodes := dht_nodes w |}.
Proof.
  intros Hnode Hreg Hvalue.
  assert (call_store sha1 node key value w =
          Returns tt {| objects := <[node := store sha1 self key value]> (objects w);
                        dht_nodes := dht_nodes w |}) as Hstore.
  { unfold call_store. by erewrite run_bind_returns by (by apply get_node_run). }
  erewrite run_bind_returns by exact Hstore.
  unfold KademliaDHT_lookup. f_equal.
  apply (lookup_local sha1 _ id key (store sha1 self key value)); [|apply find_value_store|done].
  rewrite registered_lookup. cbn [objects dht_nodes]. rewrite Hreg. simpl.
  apply list_lookup_insert_eq. by eapply lookup_lt_Some.
Qed.

(** X19.  [KademliaDHT.add_node] registers the node under its own
    identifier and returns: what the registry holds afterwards is what it
    held with that one entry set, so a node registered earlier under the
    same identifier is no longer reached, and the objects are untouched. *)
Theorem KademliaDHT_add_node_registers (w : world) (node : nat) (self : KademliaNode) :
  objects w !! node = Some self →
  ∃ w', KademliaDHT_add_node node w = Returns tt w'
    ∧ objects w' = objects w
    ∧ registered w' = dht_add_node (registered w) self
    ∧ registered w' !! node_id self = Some self.
Proof.
  intros Hnode. eexists. split.
  { unfold KademliaDHT_add_node. by erewrite run_bind_returns by (by apply get_node_run). }
  cbn [objects]. split; [done|].
  assert (registered
            {| objects := objects w;
               dht_nodes := <[node_id self := node]> (dht_nodes w) |} =
          dht_add_node (registered w) self) as Heq.
  { apply map_eq. intros id. unfold dht_add_node.
    rewrite !registered_lookup. cbn [objects dht_nodes].
    destruct (decide (id = node_id self)) as [->|Hne].
    - by rewrite !lookup_insert_eq.
    - rewrite !lookup_insert_ne by done. by rewrite registered_lookup. }
  split; [done|]. rewrite Heq. apply lookup_insert_eq.
Qed.

Lemma add_nodes_app self ids1 ids2 :
  add_nodes self (ids1 ++ ids2) =
  self' ← add_nodes self ids1; add_nodes self' ids2.
Proof.
  revert self. induction ids1 as [|id ids1 IH]; intros self; simpl; [done|].
  destruct (add_node self id) as [self'|e]; simpl; [apply IH|done].
Qed.

Lemma add_nodes_recent (start : KademliaNode) (ids : list Z) :
  buckets start = replicate 160 [] →
  0 < k start → is_id 160 (node_id start) → Forall (is_id 160) ids →
  ∃ self, add_nodes start ids = Ok self
    ∧ node_id self = node_id start ∧ k self = k start
    ∧ storage self = storage start
    ∧ length (buckets self) = 160%nat
    ∧ ∀ j, (j < 160)%nat →
        buckets self !! j =
        Some (last_k (k start)
                (remove_dups
                   (filter (λ x, x ≠ node_id start
                                 ∧ bucket_index (node_id start) x = Z.of_nat j)
                      ids))).
Proof.
  intros Hfresh Hk Hstart. induction ids as [|x ids IH] using rev_ind; intros Hids.
  - exists start. split; [done|]. split; [done|]. split; [done|]. split; [done|].
    split; [by rewrite Hfresh|]. intros j Hj. rewrite Hfresh.
    by apply lookup_replicate.
  - apply Forall_app in Hids as [Hids Hx]. rewrite Forall_singleton in Hx.
    destruct (IH Hids) as (self & Hrun & Hid & Hcap & Hst & Hlen & Hbuckets).
    rewrite add_nodes_app, Hrun. simpl.
    destruct (decide (x = node_id start)) as [->|Hne].
    + replace (add_node self (node_id start)) with (Ok self)
        by (rewrite <- Hid; symmetry; apply add_node_self).
      simpl.
      exists self. split; [done|]. split; [done|]. split; [done|]. split; [done|].
      split; [done|]. intros j Hj. rewrite filter_app, filter_cons, filter_nil.
      rewrite decide_False by (by intros [? _]). rewrite app_nil_r. by apply Hbuckets.
    + pose proof (bucket_index_nonneg (node_id start) x) as Hge.
      pose proof (bucket_index_lt 160 _ _ ltac:(lia) Hstart Hx) as Hlt.
      set (i := Z.to_nat (bucket_index (node_id start) x)).
      set (seen := λ j : nat,
             remove_dups
               (filter (λ y, y ≠ node_id start
                             ∧ bucket_index (node_id start) y = Z.of_nat j) ids)).
      assert (add_node self x =
              Ok (set_buckets self
                    (<[i := last_k (k start) (list_remove_first x (seen i) ++ [x])]>
                       (buckets self)))) as Hadd.
      { unfold add_node. rewrite Hid. destruct (Z.eqb_spec x (node_id start)); [done|].
        rewrite list_index_in_range by lia. fold i.
        rewrite (Hbuckets i) by lia. rewrite Hcap. fold (seen i).
        rewrite bucket_insert_recent by (done || apply NoDup_remove_dups). done. }
      rewrite Hadd. simpl. eexists. split; [done|]. simpl.
      split; [done|]. split; [done|]. split; [done|].
      split; [by rewrite length_insert|].
      intros j Hj. rewrite filter_app, filter_cons, filter_nil.
      destruct (decide (i = j)) as [<-|Hij].
      * rewrite list_lookup_insert_eq by lia.
        rewrite decide_True
          by (split; [done|unfold i; symmetry; apply Z2Nat.id, bucket_index_nonneg]).
        by rewrite remove_dups_snoc.
      * rewrite list_lookup_insert_ne by done.
        rewrite decide_False
          by (intros [_ Hidx]; apply Hij; unfold i; rewrite Hidx; apply Nat2Z.id).
        rewrite app_nil_r. by apply Hbuckets.
Qed.

(** X20.  The routing table after any sequence of insertions into a fresh
    node (capacity at least one, 160-bit identifiers): no insertion raises,
    and bucket [j] holds the [k] most recently seen distinct identifiers,
    oldest first, among those inserted that are not the owner's and whose
    distance from the owner selects [j]. *)
Theorem add_nodes_buckets (id : option Z) (k0 rnd : Z) (ids : list Z) :
  let start := init id k0 rnd in
  0 < k0 → is_id 160 (node_id start) → Forall (is_id 160) ids →
  ∃ self, add_nodes start ids = Ok self
    ∧ node_id self = node_id start ∧ k self = k0 ∧ storage self = ∅
    ∧ length (buckets self) = 160%nat
    ∧ ∀ j, (j < 160)%nat →
        buckets self !! j =
        Some (last_k k0
                (remove_dups
                   (filter (λ x, x ≠ node_id start
                                 ∧ bucket_index (node_id start) x = Z.of_nat j)
                      ids))).
Proof.
  intros start Hk Hstart Hids.
  apply (add_nodes_recent start ids); done.
Qed.

(** * Instances of the further properties *)

Lemma node_x_learns_y : add_node node_x 32 = Ok node_x_knows_y.
Proof. vm_compute. reflexivity. Defined.

Lemma node_x_steps : add_node_steps (init (Some 16) 20 0) node_x_knows_y.
Proof.
  apply (steps_add _ (init (Some 16) 20 0) 32); [apply steps_done|].
  exact node_x_learns_y.
Defined.

Lemma node_x_ready : ready node_x.
Proof. split; [reflexivity|]. split; [reflexivity|]. unfold is_id. simpl. lia. Defined.

Lemma node_y_ready : ready node_y.
Proof. split; [reflexivity|]. split; [reflexivity|]. unfold is_id. simpl. lia. Defined.

(** Seen from [0x10], [0x20] is at distance [0x30], in bucket 5. *)
Lemma bucket_index_range_witness :
  0 < distance 16 32 ∧ 2 ^ 5 ≤ distance 16 32 < 2 ^ (5 + 1)
  ∧ bucket_index 16 32 = 5.
Proof.
  assert (0 < distance 16 32) as Hd by reflexivity.
  assert (2 ^ 5 ≤ distance 16 32 < 2 ^ (5 + 1)) as Hrange
    by (split; [discriminate|reflexivity]).
  split; [exact Hd|]. split; [exact Hrange|].
  destruct (bucket_index_range 16 32 5) as (Hiff & _ & _).
  exact (proj2 (Hiff Hd) Hrange).
Defined.

(** An identifier of 161 bits is refused by [X]. *)
Lemma add_node_raises_iff_witness :
  length (buckets node_x) = 160%nat ∧ raises (add_node node_x (2 ^ 160)).
Proof.
  assert (length (buckets node_x) = 160%nat) as Hlen by reflexivity.
  split; [exact Hlen|].
  apply (proj2 (add_node_raises_iff node_x (2 ^ 160) Hlen)).
  split; [discriminate|]. left. discriminate.
Defined.

(** [X] learning [Y]: [Y] becomes known, the storage stays. *)
Lemma add_node_effect_witness :
  32 ≠ node_id node_x ∧ add_node node_x 32 = Ok node_x_knows_y
  ∧ storage node_x_knows_y = storage node_x ∧ 32 ∈ all_nodes node_x_knows_y.
Proof.
  assert (32 ≠ node_id node_x) as Hne by discriminate.
  split; [exact Hne|]. split; [exact node_x_learns_y|].
  destruct (add_node_effect node_x 32 node_x_knows_y Hne node_x_learns_y)
    as (_ & _ & Hst & _ & _ & _ & Hin).
  split; [exact Hst|exact Hin].
Defined.

(** [X] learning [Y] a second time. *)
Lemma add_node_again_witness : add_node node_x_knows_y 32 = Ok node_x_knows_y.
Proof.
  apply (add_node_again node_x 32 node_x_knows_y); [|exact node_x_learns_y].
  intros i bucket Hb. change (replicate 160 [] !! i = Some bucket) in Hb.
  apply lookup_replicate in Hb as [-> _]. constructor.
Defined.

(** What [X] knows after learning [Y] is [Y] or was known before. *)
Lemma add_node_members_witness :
  add_node node_x 32 = Ok node_x_knows_y
  ∧ 32 ∈ all_nodes node_x_knows_y ∧ (32 ∈ all_nodes node_x ∨ 32 = 32).
Proof.
  assert (32 ∈ all_nodes node_x_knows_y) as Hin by (vm_compute; by left).
  split; [exact node_x_learns_y|]. split; [exact Hin|].
  exact (proj1 (add_node_members node_x 32 node_x_knows_y node_x_learns_y) 32 Hin).
Defined.

(** The table of [X] after learning [Y] is within [160 * 20] entries. *)
Lemma routing_table_size_witness :
  Z.of_nat (length (all_nodes node_x_knows_y)) ≤ 160 * 20.
Proof.
  apply (routing_table_size (Some 16) 20 0 node_x_knows_y); [lia|exact node_x_steps].
Defined.

(** The identifiers [X] knows are distinct and exclude [X]. *)
Lemma known_nodes_distinct_witness :
  NoDup (all_nodes node_x_knows_y) ∧ (node_id node_x_knows_y ∉ all_nodes node_x_knows_y).
Proof.
  destruct (known_nodes_distinct (Some 16) 20 0 node_x_knows_y 0 None
              ltac:(lia) node_x_steps) as (Hnd & Hself & _).
  split; [exact Hnd|exact Hself].
Defined.

(** Every identifier [X] returns is one it knows. *)
Lemma find_closest_nodes_nearest_witness :
  32 ∈ find_closest_nodes node_x_knows_y 0 None ∧ 32 ∈ all_nodes node_x_knows_y.
Proof.
  assert (32 ∈ find_closest_nodes node_x_knows_y 0 None) as Hin
    by (vm_compute; by left).
  split; [exact Hin|].
  destruct (find_closest_nodes_nearest node_x_knows_y 0 None) as (_ & Hmem & _).
  exact (Hmem 32 Hin).
Defined.

(** A count of [-1] on [X], which knows one identifier, returns none. *)
Lemma find_closest_nodes_negative_count_witness :
  -1 < 0
  ∧ Z.of_nat (length (find_closest_nodes node_x_knows_y 0 (Some (-1))))
    = Z.max 0 (Z.of_nat (length (all_nodes node_x_knows_y)) + -1).
Proof.
  assert (-1 < 0) as Hc by reflexivity. split; [exact Hc|].
  exact (proj2 (find_closest_nodes_negative_count node_x_knows_y 0 (-1) Hc)).
Defined.

(** After [X] learns [Y], the node closest to [Y] is [Y]. *)
Lemma add_node_then_closest_witness :
  find_closest_nodes node_x_knows_y 32 (Some 1) = [32].
Proof.
  apply (add_node_then_closest node_x 32 node_x_knows_y);
    [|lia|discriminate|exact node_x_learns_y].
  intros x Hx. change (x ∈ @nil Z) in Hx. by apply elem_of_nil in Hx.
Defined.

(** Under [key_length] the keys ["k1"] and ["k2"] share a hash, so one
    reads what the other stored; and learning [Y] does not change that. *)
Lemma store_frame_witness :
  find_value key_length (store key_length node_x "k1" "v1") "k2" = Some "v1"%string
  ∧ find_value key_length node_x_knows_y "k2" = find_value key_length node_x "k2".
Proof.
  destruct (store_frame key_length node_x "k1" "v1" "k2") as (Hread & _ & _ & Hadd).
  split; [exact Hread|exact (Hadd 32 node_x_knows_y node_x_learns_y)].
Defined.

(** The value found from [X] is held by [Y], which [X] knows. *)
Lemma lookup_sound_witness :
  lookup key_length example_nodes 16 "k2" = Some "v2"%string
  ∧ "v2"%string ≠ EmptyString.
Proof.
  assert (lookup key_length example_nodes 16 "k2" = Some "v2"%string) as Hfound
    by (vm_compute; reflexivity).
  split; [exact Hfound|].
  exact (proj1 (lookup_sound key_length example_nodes 16 "k2" "v2" Hfound)).
Defined.

(** A lookup from an identifier that is not registered. *)
Lemma lookup_none_iff_witness :
  example_nodes !! 48 = None ∧ lookup key_length example_nodes 48 "k2" = None.
Proof.
  assert (example_nodes !! 48 = None) as Hreg by (vm_compute; reflexivity).
  split; [exact Hreg|].
  apply (proj2 (lookup_none_iff key_length example_nodes 48 "k2")). left. exact Hreg.
Defined.

(** From [X], the first candidate, [Y], holds the value. *)
Lemma lookup_nearest_holder_witness :
  example_nodes !! 16 = Some node_x_knows_y
  ∧ lookup key_length example_nodes 16 "k2" = Some "v2"%string.
Proof.
  assert (example_nodes !! 16 = Some node_x_knows_y) as Hreg by (vm_compute; reflexivity).
  split; [exact Hreg|].
  destruct (lookup_nearest_holder key_length example_nodes 16 "k2" node_x_knows_y Hreg)
    as [_ Hnear].
  apply (Hnear [] 32 [] (store key_length node_y "k2" "v2") "v2"%string).
  - intros s Hs. vm_compute in Hs. discriminate Hs.
  - vm_compute. reflexivity.
  - intros c' n s Hc'. by apply elem_of_nil in Hc'.
  - vm_compute. reflexivity.
  - vm_compute. reflexivity.
  - discriminate.
Defined.

(** Registering a further node under [0x30] does not change the lookup
    from [X]. *)
Lemma lookup_depends_on_consulted_witness :
  lookup key_length (<[48 := node_y]> example_nodes) 16 "k2"
  = lookup key_length example_nodes 16 "k2".
Proof.
  apply lookup_depends_on_consulted.
  - vm_compute. reflexivity.
  - intros origin c Horigin Hc.
    assert (origin = node_x_knows_y) as ->
      by (vm_compute in Horigin; by injection Horigin as <-).
    assert (c = 32) as ->.
    { vm_compute in Hc. apply elem_of_cons in Hc as [Hc|Hc]; [exact Hc|].
      by apply elem_of_nil in Hc. }
    vm_compute. reflexivity.
Defined.

(** [X] bootstraps against [Y]: both are registered, and the registry is
    as before. *)
Lemma bootstrap_introduces_witness :
  ∃ w', bootstrap 0%nat 32 example_world = Returns tt w'
    ∧ dht_nodes w' = dht_nodes example_world.
Proof.
  destruct (bootstrap_introduces example_world 0%nat 32) as [_ Hreg].
  destruct (Hreg 1%nat node_x node_y) as (w' & Hrun & Hsame & _).
  - vm_compute. reflexivity.
  - reflexivity.
  - reflexivity.
  - exact node_x_ready.
  - exact node_y_ready.
  - unfold is_id. lia.
  - exists w'. split; [exact Hrun|exact Hsame].
Defined.

(** The script with the identifiers [0x10], [0x20] and [0x30]. *)
Lemma main_result_witness :
  (is_id 160 16 ∧ is_id 160 32 ∧ is_id 160 48)
  ∧ ∃ w, main key_length 16 32 48 empty_world = Returns (Some "world"%string) w.
Proof.
  assert (is_id 160 16 ∧ is_id 160 32 ∧ is_id 160 48) as (H16 & H32 & H48)
    by (unfold is_id; lia).
  split; [split; [exact H16|split; [exact H32|exact H48]]|].
  destruct (main_result key_length 16 32 48 H16 H32 H48) as [w Hrun].
  exists w. exact Hrun.
Defined.

(** [X] stores a value and finds it by a lookup from its own identifier. *)
Lemma store_then_lookup_witness :
  ∃ w', (call_store key_length 0%nat "k1" "v1";; KademliaDHT_lookup key_length 16 "k1")
          example_world = Returns (Some "v1"%string) w'.
Proof.
  eexists.
  apply (store_then_lookup key_length example_world 0%nat node_x 16 "k1" "v1").
  - reflexivity.
  - vm_compute. reflexivity.
  - discriminate.
Defined.

(** Registering [Y] a second time, in the example's state. *)
Lemma KademliaDHT_add_node_registers_witness :
  ∃ w', KademliaDHT_add_node 1%nat example_world = Returns tt w'
    ∧ registered w' !! 32 = Some node_y.
Proof.
  destruct (KademliaDHT_add_node_registers example_world 1%nat node_y eq_refl)
    as (w' & Hrun & _ & _ & Hreg).
  exists w'. split; [exact Hrun|exact Hreg].
Defined.

(** Capacity 2, owner [0x10]: of [0x20], [0x30], [0x20], [0x28], all at
    bucket 5, the table keeps the two seen last. *)
Lemma add_nodes_buckets_witness :
  ∃ self, add_nodes (init (Some 16) 2 0) [32; 48; 32; 40] = Ok self
    ∧ buckets self !! 5%nat = Some [32; 40].
Proof.
  destruct (add_nodes_buckets (Some 16) 2 0 [32; 48; 32; 40]) as (self & Hrun & _ & _ & _ & _ & Hb).
  - lia.
  - unfold is_id. simpl. lia.
  - repeat constructor; unfold is_id; lia.
  - exists self. split; [exact Hrun|]. rewrite (Hb 5%nat) by lia. vm_compute. reflexivity.
Defined.
